(** * DissolveAI front end: the chat and repository-setup components

    A shallow embedding of the React components
    [components/ChatUI.jsx], [components/Dialog.jsx] and
    [components/Sidebar.jsx], followed by the properties of the
    ingestion/query client they implement.

    The components keep their state in React hooks.  The shared hook state
    (the [AppContext] provider) and the two components' local [useState]
    cells are fields of one [World]; an [async] function is split at its
    [await] into the part that runs inside the event handler and the part that
    runs when the promise settles; the browser, the user and React's
    rendering are a list of [Event]s. *)

From stdpp Require Import base list strings gmap.
From Stdlib Require Import ZArith NArith Ascii Lia.

Set Warnings "-register-all".
Set Default Proof Using "Type".

(** ** JavaScript values *)

Module Js.

(** A JavaScript string is its sequence of UTF-16 code units, a [list N].
    [lit] is a string literal of the source (all of them are ASCII). *)
Definition lit (s : string) : list N :=
  N_of_ascii <$> String.list_ascii_of_string s.

(** The values that cross the component boundaries: what a JSON response
    can hold, and [undefined].  Numbers only matter here through being zero
    or not, so they are integers. *)
Inductive Value : Type :=
  | Undefined
  | Null
  | Bool (b : bool)
  | Num (z : Z)
  | Str (s : list N)
  | Arr (l : list Value)
  | Obj (o : gmap string Value).

(** [ToBoolean]. *)
Definition truthy (v : Value) : bool :=
  match v with
  | Undefined | Null => false
  | Bool b => b
  | Num z => negb (z =? 0)%Z
  | Str s => match s with [] => false | _ :: _ => true end
  | Arr _ | Obj _ => true
  end.

(** [a || b]. *)
Definition or (a b : Value) : Value := if truthy a then a else b.

(** [v.k] for the property names the components read ([data], [response],
    [issues], [summary], [message], [id]): a [TypeError] ([None]) on
    [undefined] and [null], the own property of an object or [undefined],
    and [undefined] on the other values, none of whose prototypes has these
    names. *)
Definition get (v : Value) (k : string) : option Value :=
  match v with
  | Undefined | Null => None
  | Obj o => Some (default Undefined (o !! k))
  | Bool _ | Num _ | Str _ | Arr _ => Some Undefined
  end.

(** The own property names of an object ([Object.keys]). *)
Definition keys (v : Value) : gset string :=
  match v with
  | Obj o => dom o
  | _ => ∅
  end.

(** The code units [String.prototype.trim] strips: ECMAScript's WhiteSpace
    (TAB, VT, FF, SP, NBSP, ZWNBSP and the Unicode space separators) and
    LineTerminator (LF, CR, LS, PS). *)
Definition whitespace : list N :=
  [9; 10; 11; 12; 13; 32; 160; 5760;
   8192; 8193; 8194; 8195; 8196; 8197; 8198; 8199; 8200; 8201; 8202;
   8232; 8233; 8239; 8287; 12288; 65279]%N.

Definition is_whitespace (c : N) : bool := bool_decide (c ∈ whitespace).

Fixpoint trimStart (s : list N) : list N :=
  match s with
  | [] => []
  | c :: s' => if is_whitespace c then trimStart s' else s
  end.

Definition trimEnd (s : list N) : list N := reverse (trimStart (reverse s)).

Definition trim (s : list N) : list N := trimEnd (trimStart s).

(** [!s.trim()], the guard of both [sendMessage] and [fetchRepo]. *)
Definition blank (s : list N) : bool := negb (truthy (Str (trim s))).

(** A string made of white space only (the empty string included). *)
Definition whitespace_only (s : list N) : bool := forallb is_whitespace s.

End Js.

(** ** State *)

(** [{ role: "user" | "assistant", text }]: the only two literals the source
    writes into [role]. *)
Inductive Role : Type := user | assistant.

Record Message : Type := mkMessage { role : Role; text : Js.Value }.

(** The values the components take from [useContext(AppContext)]. *)
Record AppState : Type := mkApp {
  chatMessages : list Message;
  selectedIssue : Js.Value;
  selectedModel : Js.Value;
  repoUrl : list N;
  issues : Js.Value;
  summary : Js.Value;
  sidebarOpen : bool;
}.

(** What [alert] is called with.  ["Error: " + err.message] keeps the value
    of [err.message]; [AlertTypeError] is the same call for the [TypeError]
    the engine raises on [res.data.issues], whose message text is the
    engine's. *)
Inductive AlertText : Type :=
  | AlertLit (s : string)
  | AlertError (message : Js.Value)
  | AlertTypeError.

(** What leaves the components: the two requests of [api/api] and [alert]. *)
Inductive Effect : Type :=
  | EAskAI (payload : Js.Value)
  | EProcessRepo (payload : Js.Value)
  | EAlert (a : AlertText).

Record World : Type := mkWorld {
  app : AppState;
  (* ChatUI: useState("") and useState(false) *)
  chat_input : list N;
  chat_loading : bool;
  (* Dialog: useState(false) and useState(0) *)
  dlg_loading : bool;
  dlg_currentStep : Z;
  (* window.setInterval: the live interval ids and the next id to hand out *)
  timers : list nat;
  next_timer : nat;
  (* promises not yet settled: the number of askAI calls, and for each
     processRepo call the [stepInterval] its continuation holds *)
  askAI_pending : nat;
  processRepo_pending : list nat;
  (* everything emitted so far, oldest first *)
  effects : list Effect;
  (* React: the [chatMessages] the last render of ChatUI closed over, which
     lags behind the store while an update made outside an event handler
     waits to be rendered; and whether an updater has thrown, which makes
     the render throw *)
  chat_rendered : list Message;
  render_error : bool;
}.

(** How a promise settles. *)
Inductive Outcome : Type :=
  | Resolved (res : Js.Value)
  | Rejected (err : Js.Value).

(** *** The state setters *)

Definition with_app (f : AppState → AppState) (w : World) : World :=
  mkWorld (f (app w)) (chat_input w) (chat_loading w) (dlg_loading w)
    (dlg_currentStep w) (timers w) (next_timer w) (askAI_pending w)
    (processRepo_pending w) (effects w)
    (chat_rendered w) (render_error w).

(** [setChatMessages]: React takes a value or an updater; [setChatMessages v]
    of the source is [setChatMessages (λ _, v)] here. *)
Definition setChatMessages (f : list Message → list Message) : World → World :=
  with_app (λ a, mkApp (f (chatMessages a)) (selectedIssue a) (selectedModel a)
                   (repoUrl a) (issues a) (summary a) (sidebarOpen a)).

Definition setSelectedIssue (v : Js.Value) : World → World :=
  with_app (λ a, mkApp (chatMessages a) v (selectedModel a)
                   (repoUrl a) (issues a) (summary a) (sidebarOpen a)).

Definition setSelectedModel (v : Js.Value) : World → World :=
  with_app (λ a, mkApp (chatMessages a) (selectedIssue a) v
                   (repoUrl a) (issues a) (summary a) (sidebarOpen a)).

Definition setRepoUrl (s : list N) : World → World :=
  with_app (λ a, mkApp (chatMessages a) (selectedIssue a) (selectedModel a)
                   s (issues a) (summary a) (sidebarOpen a)).

Definition setIssues (v : Js.Value) : World → World :=
  with_app (λ a, mkApp (chatMessages a) (selectedIssue a) (selectedModel a)
                   (repoUrl a) v (summary a) (sidebarOpen a)).

Definition setSummary (v : Js.Value) : World → World :=
  with_app (λ a, mkApp (chatMessages a) (selectedIssue a) (selectedModel a)
                   (repoUrl a) (issues a) v (sidebarOpen a)).

Definition setSidebarOpen (b : bool) : World → World :=
  with_app (λ a, mkApp (chatMessages a) (selectedIssue a) (selectedModel a)
                   (repoUrl a) (issues a) (summary a) b).

Definition setInput (s : list N) (w : World) : World :=
  mkWorld (app w) s (chat_loading w) (dlg_loading w)
    (dlg_currentStep w) (timers w) (next_timer w) (askAI_pending w)
    (processRepo_pending w) (effects w)
    (chat_rendered w) (render_error w).

Definition setChatLoading (b : bool) (w : World) : World :=
  mkWorld (app w) (chat_input w) b (dlg_loading w)
    (dlg_currentStep w) (timers w) (next_timer w) (askAI_pending w)
    (processRepo_pending w) (effects w)
    (chat_rendered w) (render_error w).

Definition setDialogLoading (b : bool) (w : World) : World :=
  mkWorld (app w) (chat_input w) (chat_loading w) b
    (dlg_currentStep w) (timers w) (next_timer w) (askAI_pending w)
    (processRepo_pending w) (effects w)
    (chat_rendered w) (render_error w).

Definition setCurrentStep (f : Z → Z) (w : World) : World :=
  mkWorld (app w) (chat_input w) (chat_loading w) (dlg_loading w)
    (f (dlg_currentStep w)) (timers w) (next_timer w) (askAI_pending w)
    (processRepo_pending w) (effects w)
    (chat_rendered w) (render_error w).

(** [setInterval]: a fresh id, now live. *)
Definition setInterval (w : World) : nat * World :=
  (next_timer w,
   mkWorld (app w) (chat_input w) (chat_loading w) (dlg_loading w)
     (dlg_currentStep w) (timers w ++ [next_timer w]) (S (next_timer w))
     (askAI_pending w) (processRepo_pending w) (effects w)
    (chat_rendered w) (render_error w)).

Definition clearInterval (id : nat) (w : World) : World :=
  mkWorld (app w) (chat_input w) (chat_loading w) (dlg_loading w)
    (dlg_currentStep w) (filter (λ t, t ≠ id) (timers w)) (next_timer w)
    (askAI_pending w) (processRepo_pending w) (effects w)
    (chat_rendered w) (render_error w).

Definition set_askAI_pending (n : nat) (w : World) : World :=
  mkWorld (app w) (chat_input w) (chat_loading w) (dlg_loading w)
    (dlg_currentStep w) (timers w) (next_timer w) n
    (processRepo_pending w) (effects w)
    (chat_rendered w) (render_error w).

Definition set_processRepo_pending (l : list nat) (w : World) : World :=
  mkWorld (app w) (chat_input w) (chat_loading w) (dlg_loading w)
    (dlg_currentStep w) (timers w) (next_timer w) (askAI_pending w)
    l (effects w) (chat_rendered w) (render_error w).

(** React renders the pending updates: the next handlers of ChatUI close
    over the log of the store. *)
Definition commit (w : World) : World :=
  mkWorld (app w) (chat_input w) (chat_loading w) (dlg_loading w)
    (dlg_currentStep w) (timers w) (next_timer w) (askAI_pending w)
    (processRepo_pending w) (effects w)
    (chatMessages (app w)) (render_error w).

(** An updater handed to a setter throws when React runs it. *)
Definition set_render_error (w : World) : World :=
  mkWorld (app w) (chat_input w) (chat_loading w) (dlg_loading w)
    (dlg_currentStep w) (timers w) (next_timer w) (askAI_pending w)
    (processRepo_pending w) (effects w)
    (chat_rendered w) true.

Definition emit (e : Effect) (w : World) : World :=
  mkWorld (app w) (chat_input w) (chat_loading w) (dlg_loading w)
    (dlg_currentStep w) (timers w) (next_timer w) (askAI_pending w)
    (processRepo_pending w) (effects w ++ [e])
    (chat_rendered w) (render_error w).

(** ** components/ChatUI.jsx *)

Module ChatUI.

(** What one render of [ChatUI] closes over.  The [sendMessage] of a render
    reads these, not the store.  [selectedIssue], [selectedModel] and [input]
    change in event handlers only, and React renders the updates of an event
    handler before the next event, so the render has those of the store;
    [chatMessages] is also updated when a promise settles, and the render
    has the log of the last [commit]. *)
Record Render : Type := mkRender {
  r_chatMessages : list Message;
  r_selectedIssue : Js.Value;
  r_selectedModel : Js.Value;
  r_input : list N;
  r_loading : bool;
}.

Definition render (w : World) : Render :=
  mkRender (chat_rendered w) (selectedIssue (app w))
    (selectedModel (app w)) (chat_input w) (chat_loading w).

(** [{ issue_id: selectedIssue, prompt: userText, model: selectedModel }] *)
Definition askAI_payload (r : Render) (userText : list N) : Js.Value :=
  Js.Obj (<["issue_id" := r_selectedIssue r]>
         (<["prompt" := Js.Str userText]>
         (<["model" := r_selectedModel r]> ∅))).

(** [sendMessage], from its call to its [await]. *)
Definition sendMessage (r : Render) (w : World) : World :=
  if Js.blank (r_input r) then w
  else
    let w := setChatMessages
               (λ _, r_chatMessages r ++ [mkMessage user (Js.Str (r_input r))]) w in
    let userText := r_input r in
    let w := setInput [] w in
    let w := setChatLoading true w in
    let w := emit (EAskAI (askAI_payload r userText)) w in
    set_askAI_pending (S (askAI_pending w)) w.

(** [res.data.response]; [None] is the [TypeError] of reading a property of
    [undefined] or [null]. *)
Definition response_of (res : Js.Value) : option Js.Value :=
  d ← Js.get res "data"; Js.get d "response".

(** The [catch] block. *)
Definition on_catch : World → World :=
  setChatMessages (λ m, m ++ [mkMessage assistant (Js.Str (Js.lit "Error occurred"))]).

(** [sendMessage], from the settling of [backend.askAI] to its end.  On a
    response the [try] hands [setChatMessages] an updater and ends; the
    updater reads [res.data.response] when React runs it, outside the [try]:
    when that read throws, no message is appended, the [catch] does not run
    and the render throws.  The [catch] runs on a rejection only. *)
Definition sendMessage_settled (o : Outcome) (w : World) : World :=
  let w :=
    match o with
    | Resolved res =>
        match response_of res with
        | Some v => setChatMessages (λ m, m ++ [mkMessage assistant v]) w
        | None => set_render_error w
        end
    | Rejected _ => on_catch w
    end in
  setChatLoading false w.

(** [sendMessage] called from a key press or a click.  React renders the
    updates of an event handler before the next event: once [sendMessage]
    has written the log, the next render closes over what it wrote. *)
Definition onSend (w : World) : World :=
  let w' := sendMessage (render w) w in
  if Js.blank (chat_input w) then w' else commit w'.

(** [disabled={loading || !input.trim()}] of the Send button. *)
Definition send_disabled (r : Render) : bool :=
  r_loading r || Js.blank (r_input r).

End ChatUI.

(** An entry of a [CustomSelect]'s [options]. *)
Record SelectOption : Type := mkOption { value : Js.Value; label : string }.

(** ** components/Dialog.jsx *)

Module Dialog.

Definition PROCESSING_STEPS : list string :=
  [ "Processing Request...";
    "Cloning Repository...";
    "Fetching Codes & Understanding...";
    "Cleaning Data & Preprocessing...";
    "Analyzing Contextual Relations...";
    "Fetching Issues...";
    "Creating Knowledge Base..." ].

Record Render : Type := mkRender {
  r_selectedModel : Js.Value;
  r_repoUrl : list N;
  r_issues : Js.Value;
  r_selectedIssue : Js.Value;
  r_loading : bool;
  r_currentStep : Z;
}.

Definition render (w : World) : Render :=
  mkRender (selectedModel (app w)) (repoUrl (app w)) (issues (app w))
    (selectedIssue (app w)) (dlg_loading w) (dlg_currentStep w).

(** The updater the interval passes to [setCurrentStep]. *)
Definition next_step (prev : Z) : Z :=
  if (prev <? Z.of_nat (length PROCESSING_STEPS) - 1)%Z then (prev + 1)%Z
  else prev.

(** [{ url: repoUrl.trim(), model: selectedModel }] *)
Definition processRepo_payload (r : Render) : Js.Value :=
  Js.Obj (<["url" := Js.Str (Js.trim (r_repoUrl r))]>
         (<["model" := r_selectedModel r]> ∅)).

(** [fetchRepo], from its call to its [await]. *)
Definition fetchRepo (r : Render) (w : World) : World :=
  if Js.blank (r_repoUrl r) then emit (EAlert (AlertLit "Enter repository URL")) w
  else
    let w := setDialogLoading true w in
    let w := setCurrentStep (λ _, 0%Z) w in
    let w := setIssues (Js.Arr []) w in
    let w := setSelectedIssue Js.Null w in
    let '(stepInterval, w) := setInterval w in
    let w := emit (EProcessRepo (processRepo_payload r)) w in
    set_processRepo_pending (processRepo_pending w ++ [stepInterval]) w.

(** The body of the [try] after the [await]: [None] when it throws the
    [TypeError] of [res.data.issues], which happens before either setter
    runs. *)
Definition publish (res : Js.Value) (w : World) : option World :=
  data ← Js.get res "data";
  found ← Js.get data "issues";
  let cleanIssues := Js.or found (Js.Arr []) in
  let w := setIssues cleanIssues w in
  s ← Js.get data "summary";
  Some (setSummary (Js.or s (Js.Str [])) w).

(** The [catch (err)] block: [err.message] itself throws on [undefined] and
    [null], and then nothing is shown. *)
Definition on_catch (err : option Js.Value) (w : World) : World :=
  match err with
  | None => emit (EAlert AlertTypeError) w
  | Some e =>
      match Js.get e "message" with
      | Some m => emit (EAlert (AlertError m)) w
      | None => w
      end
  end.

(** The [finally] block. *)
Definition on_finally (stepInterval : nat) (w : World) : World :=
  let w := clearInterval stepInterval w in
  let w := setDialogLoading false w in
  setCurrentStep (λ _, 0%Z) w.

(** [fetchRepo], from the settling of [backend.processRepo] to its end. *)
Definition fetchRepo_settled (stepInterval : nat) (o : Outcome) (w : World) : World :=
  let w :=
    match o with
    | Resolved res =>
        match publish res w with
        | Some w' => w'
        | None => on_catch None w
        end
    | Rejected err => on_catch (Some err) w
    end in
  on_finally stepInterval w.

(** The call ends in an error: the promise rejects, or the [try] throws. *)
Definition failed (o : Outcome) : Prop :=
  match o with
  | Resolved res => ∀ w, publish res w = None
  | Rejected _ => True
  end.

Definition modelOptions : list SelectOption :=
  [ mkOption (Js.Str (Js.lit "gemini")) "Gemini 1.5 Pro";
    mkOption (Js.Str (Js.lit "groq")) "ChatGPT-OSS" ].

(** [disabled={loading}] of the Fetch button. *)
Definition fetch_disabled (r : Render) : bool := r_loading r.

(** [PROCESSING_STEPS[currentStep]], shown while [loading]; [None] is
    [undefined]. *)
Definition step_label (r : Render) : option string :=
  if (r_currentStep r <? 0)%Z then None
  else PROCESSING_STEPS !! Z.to_nat (r_currentStep r).

End Dialog.

(** ** components/Sidebar.jsx *)

Module Sidebar.

Definition modelOptions : list SelectOption :=
  [ mkOption (Js.Str (Js.lit "gemini")) "Gemini 1.5 Pro";
    mkOption (Js.Str (Js.lit "groq")) "ChatGPT-OSS" ].

End Sidebar.

(** [issues.map(i => ({ value: i.id, ... }))], the values of [issueOptions] in
    both [Dialog] and [Sidebar]; [None] when the render throws. *)
Definition issueOptions_values (issues : Js.Value) : option (list Js.Value) :=
  match issues with
  | Js.Arr l => mapM (λ i, Js.get i "id") l
  | _ => None
  end.

(** ** The event loop *)

Inductive Panel : Type := InDialog | InSidebar.

Definition modelOptions_of (p : Panel) : list SelectOption :=
  match p with
  | InDialog => Dialog.modelOptions
  | InSidebar => Sidebar.modelOptions
  end.

Inductive Event : Type :=
  (* ChatUI *)
  | ChatInput (s : list N)          (* onChange of the message input *)
  | ChatEnter                       (* onKeyPress: Enter without Shift *)
  | ChatSend                        (* onClick of Send *)
  | AskAISettles (o : Outcome)
  (* Dialog *)
  | FetchClick                      (* onClick of Fetch Issues & Analyze *)
  | ProcessRepoSettles (i : nat) (o : Outcome)
  | Tick (id : nat)                 (* the interval [id] fires *)
  (* the CustomSelects and inputs of Dialog and Sidebar *)
  | PickModel (p : Panel) (i : nat)
  | PickIssue (p : Panel) (i : nat)
  | RepoUrlInput (s : list N)
  | SidebarOpen (b : bool)
  (* React *)
  | Commit.                         (* the pending updates are rendered *)

(** One event.  A key press or a click runs its handler on the render React
    has made last; a promise that settles runs the rest of the [async]
    function, whose updates wait for a [Commit]; [Commit] may come at any
    time.  After a [render_error] React has taken the components down and
    none of the key presses and clicks below can come from them any more:
    the runs of the client are among the runs of [run], which go on. *)
Definition step (e : Event) (w : World) : World :=
  match e with
  | ChatInput s => setInput s w
  | ChatEnter => ChatUI.onSend w
  | ChatSend =>
      if ChatUI.send_disabled (ChatUI.render w) then w
      else ChatUI.onSend w
  | AskAISettles o =>
      match askAI_pending w with
      | O => w
      | S n => ChatUI.sendMessage_settled o (set_askAI_pending n w)
      end
  | FetchClick =>
      if Dialog.fetch_disabled (Dialog.render w) then w
      else Dialog.fetchRepo (Dialog.render w) w
  | ProcessRepoSettles i o =>
      match processRepo_pending w !! i with
      | None => w
      | Some stepInterval =>
          Dialog.fetchRepo_settled stepInterval o
            (set_processRepo_pending (delete i (processRepo_pending w)) w)
      end
  | Tick id =>
      if bool_decide (id ∈ timers w) then setCurrentStep Dialog.next_step w
      else w
  | PickModel p i =>
      match modelOptions_of p !! i with
      | Some o => setSelectedModel (value o) w
      | None => w
      end
  | PickIssue _ i =>
      match issueOptions_values (issues (app w)) ≫= (.!! i) with
      | Some v => setSelectedIssue v w
      | None => w
      end
  | RepoUrlInput s => setRepoUrl s w
  | SidebarOpen b => setSidebarOpen b w
  | Commit => commit w
  end.

Definition run (evs : list Event) (w : World) : World :=
  foldl (λ w e, step e w) w evs.

(** The hooks' initial values ([useState("")], [useState(false)],
    [useState(0)]) around a context state [a]; no timer, no request; the
    first render has closed over the log of [a]. *)
Definition init (a : AppState) : World :=
  mkWorld a [] false false 0 [] 0 0 [] [] (chatMessages a) false.

(** ** Reading the requests

    The vocabulary in which the properties below speak of the requests the
    components emit. *)

(** A query payload carries a session key when it has a property besides the
    issue selection, the question and the model selection. *)
Definition carries_session_key (p : Js.Value) : Prop :=
  ∃ k, k ∈ Js.keys p ∧ k ∉ ({["issue_id"; "prompt"; "model"]} : gset string).

(** The [model] a request names. *)
Definition request_model (e : Effect) : option Js.Value :=
  match e with
  | EAskAI p | EProcessRepo p => Js.get p "model"
  | EAlert _ => None
  end.

(** A sequence of requests keeps the backend of each session fixed when every
    query names the model of the latest ingestion before it; [session] is that
    ingestion's payload, if there was one. *)
Fixpoint backend_fixed (session : option Js.Value) (es : list Effect) : Prop :=
  match es with
  | [] => True
  | EProcessRepo p :: es => backend_fixed (Some p) es
  | EAskAI q :: es =>
      match session with
      | Some p => Js.get q "model" = Js.get p "model"
      | None => True
      end ∧ backend_fixed session es
  | EAlert _ :: es => backend_fixed session es
  end.

(** At most one ingestion is in flight, and [loading] tells whether one is. *)
Definition one_fetch (w : World) : Prop :=
  length (processRepo_pending w) ≤ 1
  ∧ dlg_loading w = bool_decide (processRepo_pending w ≠ []).

(** [0 <= currentStep <= PROCESSING_STEPS.length - 1] *)
Definition valid_step (w : World) : Prop :=
  (0 ≤ dlg_currentStep w ≤ Z.of_nat (length Dialog.PROCESSING_STEPS) - 1)%Z.

Definition settles_processRepo (e : Event) : bool :=
  match e with
  | ProcessRepoSettles _ _ => true
  | _ => false
  end.

Definition picks_model (e : Event) : bool :=
  match e with
  | PickModel _ _ => true
  | _ => false
  end.

(** ** Sample data

    Concrete values for the examples below: a context as the setup dialog
    finds it, a response of [/process-repo], two failures of [/ask-ai]. *)

Module Sample.

Definition gemini : Js.Value := Js.Str (Js.lit "gemini").
Definition groq : Js.Value := Js.Str (Js.lit "groq").

Definition issue1 : Js.Value :=
  Js.Obj (<["id" := Js.Num 1]> {["title" := Js.Str (Js.lit "Crash on start")]}).

Definition issue2 : Js.Value :=
  Js.Obj (<["id" := Js.Num 2]> {["title" := Js.Str (Js.lit "Typo in README")]}).

Definition url : list N := Js.lit "https://github.com/octo/demo".

(** Nothing ingested yet. *)
Definition fresh : AppState :=
  mkApp [] Js.Null gemini url (Js.Arr []) (Js.Str []) false.

(** A repository already ingested, its first issue selected. *)
Definition settled : AppState :=
  mkApp [] (Js.Num 1) gemini url (Js.Arr [issue1; issue2])
    (Js.Str (Js.lit "A demo repository.")) false.

Definition data : gmap string Js.Value :=
  <["issues" := Js.Arr [issue1; issue2]]>
    {["summary" := Js.Str (Js.lit "A demo repository.")]}.

Definition response : Js.Value := Js.Obj {["data" := Js.Obj data]}.

Definition answer : Js.Value :=
  Js.Obj {["data" := Js.Obj {["response" := Js.Str (Js.lit "Try upgrading.")]}]}.

Definition timeout_error : Js.Value :=
  Js.Obj (<["name" := Js.Str (Js.lit "GenerationTimeoutError")]>
          {["message" := Js.Str (Js.lit "generation timed out")]}).

Definition rejected_error : Js.Value :=
  Js.Obj (<["name" := Js.Str (Js.lit "GenerationRejectedError")]>
          {["message" := Js.Str (Js.lit "input rejected")]}).

Definition fetch_error : Js.Value :=
  Js.Obj (<["name" := Js.Str (Js.lit "FetchError")]>
          {["message" := Js.Str (Js.lit "Request failed with status code 500")]}).

(** The chat after the user typed a question and pressed Enter. *)
Definition asked : World :=
  run [ChatInput (Js.lit "Why does it crash?"); ChatEnter] (init settled).

End Sample.

(** ** The rest of the components

    What the renders compute beside the two requests: the texts a
    [CustomSelect] shows, the key handler of the chat input, the Continue
    button of the dialog, the source of the summary page. *)

Module JsText.

(** [sep] is what [s] starts with. *)
Fixpoint starts_with (sep s : list N) : bool :=
  match sep, s with
  | [], _ => true
  | _ :: _, [] => false
  | a :: sep', b :: s' => bool_decide (a = b) && starts_with sep' s'
  end.

(** [s.includes(sep)] *)
Fixpoint includes (sep s : list N) : bool :=
  match s with
  | [] => starts_with sep []
  | _ :: s' => starts_with sep s || includes sep s'
  end.

(** The scan of [s.split(sep)] for a non-empty [sep]: [cur] is the piece
    being read, last code unit first, and [skip] the number of code units of
    a separator just found that are still to pass. *)
Fixpoint split_from (sep : list N) (skip : nat) (cur s : list N) : list (list N) :=
  match s with
  | [] => [reverse cur]
  | c :: s' =>
      match skip with
      | S k => split_from sep k cur s'
      | O =>
          if starts_with sep s
          then reverse cur :: split_from sep (length sep - 1) [] s'
          else split_from sep 0 (c :: cur) s'
      end
  end.

(** [s.split(sep)]; an empty separator splits into code units. *)
Definition split (sep s : list N) : list (list N) :=
  match sep with
  | [] => (λ c, [c]) <$> s
  | _ :: _ => split_from sep 0 [] s
  end.

(** [l.join(sep)] of an array of strings. *)
Fixpoint join (sep : list N) (l : list (list N)) : list N :=
  match l with
  | [] => []
  | x :: l' =>
      match l' with
      | [] => x
      | _ :: _ => x ++ sep ++ join sep l'
      end
  end.

(** [a === b].  Two arrays, or two objects, are equal when they are the same
    reference, which a [Js.Value] does not tell: [None]. *)
Definition strict_eq (a b : Js.Value) : option bool :=
  match a, b with
  | Js.Undefined, Js.Undefined | Js.Null, Js.Null => Some true
  | Js.Bool x, Js.Bool y => Some (bool_decide (x = y))
  | Js.Num x, Js.Num y => Some (bool_decide (x = y))
  | Js.Str x, Js.Str y => Some (bool_decide (x = y))
  | Js.Arr _, Js.Arr _ | Js.Obj _, Js.Obj _ => None
  | _, _ => Some false
  end.

End JsText.

(** The [CustomSelect] of both files; an option is its [value] and its
    [label]. *)
Module CustomSelect.

(** [options.find(opt => opt.value === value)] *)
Fixpoint find (value : Js.Value) (options : list (Js.Value * list N))
    : option (option (Js.Value * list N)) :=
  match options with
  | [] => Some None
  | o :: os =>
      b ← JsText.strict_eq o.1 value;
      if b : bool then Some (Some o) else find value os
  end.

(** [options.find(opt => opt.value === value)?.label || placeholder], the
    text of the trigger button. *)
Definition selectedLabel (value : Js.Value) (options : list (Js.Value * list N))
    (placeholder : Js.Value) : option Js.Value :=
  found ← find value options;
  Some (Js.or (match found with
               | Some o => Js.Str o.2
               | None => Js.Undefined
               end) placeholder).

(** The [options] prop built from a [modelOptions] literal. *)
Definition of_options (os : list SelectOption) : list (Js.Value * list N) :=
  (λ o, (value o, Js.lit (label o))) <$> os.

(** The two texts of an entry of the dialog's list:
    [option.label.split(' - ')[0]] and
    [option.label.includes(' - ') ? option.label.split(' - ').slice(1).join(' - ') : option.label]. *)
Definition Dialog_headline (label : list N) : option (list N) :=
  JsText.split (Js.lit " - ") label !! 0.

Definition Dialog_detail (label : list N) : list N :=
  if JsText.includes (Js.lit " - ") label
  then JsText.join (Js.lit " - ") (drop 1 (JsText.split (Js.lit " - ") label))
  else label.

(** [placeholder = "Select option"], the default of the sidebar's
    parameter. *)
Definition Sidebar_placeholder (p : Js.Value) : Js.Value :=
  match p with
  | Js.Undefined => Js.Str (Js.lit "Select option")
  | _ => p
  end.

End CustomSelect.

(** [`#${id} - ${title}`], the label of an issue option, from the texts the
    template literal makes of [i.id] and [i.title]. *)
Definition issue_label (id title : list N) : list N :=
  Js.lit "#" ++ id ++ Js.lit " - " ++ title.

(** [onKeyPress] of the chat input:
    [e.key === 'Enter' && !e.shiftKey && sendMessage()], the call being one
    from an event handler. *)
Definition ChatUI_onKeyPress (key : list N) (shiftKey : bool) (w : World) : World :=
  if bool_decide (key = Js.lit "Enter") && negb shiftKey
  then ChatUI.onSend w
  else w.

(** What a click on Continue to Workspace does:
    [selectedIssue ? onDone() : alert("Please select an issue to continue.")]. *)
Inductive ContinueAction : Type :=
  | CallOnDone
  | AlertSelectIssue.

Definition Dialog_continue (r : Dialog.Render) : ContinueAction :=
  if Js.truthy (Dialog.r_selectedIssue r) then CallOnDone else AlertSelectIssue.

(** [issues.length > 0 && ...]: whether the dialog shows the issue select and
    the Continue button; [None] when the render has thrown on [issues.map]
    before. *)
Definition Dialog_continue_shown (r : Dialog.Render) : option bool :=
  vs ← issueOptions_values (Dialog.r_issues r);
  Some (bool_decide (0 < length vs)).

(** pages/SummaryPage.jsx: the markdown handed to [marked],
    [summary || "*No summary available. Please check the repository URL.*"]. *)
Definition SummaryPage_source (summary : Js.Value) : Js.Value :=
  Js.or summary
    (Js.Str (Js.lit "*No summary available. Please check the repository URL.*")).

(** *** Reading a run *)

(** The prompts of the queries sent, oldest first. *)
Definition prompts (es : list Effect) : list Js.Value :=
  omap (λ e, match e with
             | EAskAI p => Js.get p "prompt"
             | _ => None
             end) es.

#[global] Instance Role_eq_dec : EqDecision Role.
Proof. solve_decision. Defined.

(** The texts of the messages of one role, oldest first. *)
Definition texts_of (who : Role) (ms : list Message) : list Js.Value :=
  omap (λ m, match who, role m with
             | user, user | assistant, assistant => Some (text m)
             | _, _ => None
             end) ms.

(** The requests among the effects: the alerts dropped. *)
Definition is_request (e : Effect) : bool :=
  match e with
  | EAskAI _ | EProcessRepo _ => true
  | EAlert _ => false
  end.

Definition requests (es : list Effect) : list Effect :=
  filter (λ e, is_request e) es.

(** The events that are a key press or a click on one of the two buttons. *)
Definition is_gesture (e : Event) : bool :=
  match e with
  | ChatEnter | ChatSend | FetchClick => true
  | _ => false
  end.

(** The render of ChatUI is behind the store by assistant messages only:
    those appended by the replies that have settled since React rendered. *)
Definition rendered_behind (w : World) : Prop :=
  ∃ tail, chatMessages (app w) = chat_rendered w ++ tail
          ∧ Forall (λ m, role m = assistant) tail.

(** A prompt that says something: a string that is not white space only. *)
Definition spoken (p : Js.Value) : Prop :=
  ∃ s, p = Js.Str s ∧ Js.whitespace_only s = false.

(** The books of the chat, kept against the context state [a] the client
    started with: the render is behind the store by replies only, the user
    messages added are the prompts sent, the assistant messages added and the
    requests pending are no more than the prompts sent, the indicator is on
    only while a request is pending, and every prompt says something. *)
Definition chat_accounts (a : AppState) (w : World) : Prop :=
  rendered_behind w
  ∧ texts_of user (chatMessages (app w))
    = texts_of user (chatMessages a) ++ prompts (effects w)
  ∧ length (texts_of assistant (chatMessages (app w))) + askAI_pending w
    ≤ length (texts_of assistant (chatMessages a)) + length (prompts (effects w))
  ∧ (chat_loading w = true → askAI_pending w ≠ 0)
  ∧ Forall spoken (prompts (effects w)).

(** The dialog at rest and at work: one ingestion at most, the live intervals
    those of the calls in flight, and the step at 0 unless one is. *)
Definition dialog_accounts (w : World) : Prop :=
  one_fetch w
  ∧ timers w = processRepo_pending w
  ∧ (dlg_loading w = false → dlg_currentStep w = 0%Z).

(** * Properties *)

(** ** Strings: what [trim] leaves *)

Section Trim.

Implicit Types s : list N.

Lemma trimStart_nil s :
  Js.trimStart s = [] ↔ Js.whitespace_only s = true.
Proof.
  unfold Js.whitespace_only.
  induction s as [|c s IH]; simpl; [done|].
  destruct (Js.is_whitespace c); simpl; [exact IH|].
  split; discriminate.
Qed.

(** What [trimStart] returns starts with a code unit that is no white
    space, unless it is empty. *)
Lemma trimStart_head s c t :
  Js.trimStart s = c :: t → Js.is_whitespace c = false.
Proof.
  induction s as [|d s IH]; simpl; [done|].
  destruct (Js.is_whitespace d) eqn:Hd; [exact IH|].
  intros [= -> _]. exact Hd.
Qed.

Lemma whitespace_only_reverse s :
  Js.whitespace_only (reverse s) = Js.whitespace_only s.
Proof.
  unfold Js.whitespace_only.
  apply eq_true_iff_eq.
  rewrite <-!Is_true_true, !forallb_True. apply Forall_reverse.
Qed.

Lemma whitespace_only_trimStart s :
  Js.whitespace_only (Js.trimStart s) = true → Js.trimStart s = [].
Proof.
  destruct (Js.trimStart s) as [|c t] eqn:E; [done|].
  apply trimStart_head in E.
  unfold Js.whitespace_only. simpl. by rewrite E.
Qed.

Lemma trim_nil s : Js.trim s = [] ↔ Js.whitespace_only s = true.
Proof.
  unfold Js.trim, Js.trimEnd. split.
  - intros H. apply (f_equal reverse) in H.
    rewrite reverse_involutive, reverse_nil in H.
    apply trimStart_nil in H. rewrite whitespace_only_reverse in H.
    by apply trimStart_nil, whitespace_only_trimStart.
  - intros H. apply trimStart_nil in H. by rewrite H.
Qed.

(** The guard [!s.trim()] holds exactly of the white-space-only strings. *)
Lemma blank_whitespace_only s : Js.blank s = Js.whitespace_only s.
Proof.
  apply eq_true_iff_eq. rewrite <-trim_nil.
  unfold Js.blank. simpl. destruct (Js.trim s); simpl; split; done.
Qed.

End Trim.

(** ** ChatUI: [sendMessage] *)

Section SendMessage.

Implicit Types (w : World) (r : ChatUI.Render) (o : Outcome).

(** C9.  On an input that is empty or made of white space only,
    [sendMessage] does nothing at all: whether it is reached through the
    Enter key or through the Send button, the world after it is the world
    before it, so no [askAI] request is emitted or left pending and the
    chat log, the input field and the loading flag are what they were. *)
Theorem sendMessage_blank_noop w :
  Js.whitespace_only (chat_input w) = true →
  ChatUI.sendMessage (ChatUI.render w) w = w
  ∧ step ChatEnter w = w
  ∧ step ChatSend w = w.
Proof.
  intros Hws.
  assert (ChatUI.sendMessage (ChatUI.render w) w = w) as Hsend.
  { unfold ChatUI.sendMessage. simpl.
    by rewrite blank_whitespace_only, Hws. }
  assert (ChatUI.onSend w = w) as Hon.
  { unfold ChatUI.onSend. by rewrite blank_whitespace_only, Hws. }
  split; [exact Hsend|]. split; [exact Hon|].
  cbn [step]. by destruct (ChatUI.send_disabled _).
Qed.

(** A blank input at work: three white-space code units (space, tab, no-break
    space) typed into the chat of a settled session. *)
Lemma sendMessage_blank_noop_witness :
  let w := step (ChatInput [32; 9; 160]%N) (init Sample.settled) in
  Js.whitespace_only (chat_input w) = true
  ∧ ChatUI.sendMessage (ChatUI.render w) w = w
  ∧ step ChatEnter w = w
  ∧ step ChatSend w = w.
Proof.
  split; [reflexivity|].
  apply (sendMessage_blank_noop (step (ChatInput [32; 9; 160]%N) (init Sample.settled))).
  reflexivity.
Defined.

(** *** The chat log *)

(** The call writes the log of its render and the user message. *)
Lemma onSend_chatMessages w :
  Js.blank (chat_input w) = false →
  chatMessages (app (ChatUI.onSend w))
  = chat_rendered w ++ [mkMessage user (Js.Str (chat_input w))]
  ∧ chat_rendered (ChatUI.onSend w) = chatMessages (app (ChatUI.onSend w)).
Proof.
  intros Hb. unfold ChatUI.onSend, ChatUI.sendMessage. simpl. by rewrite Hb.
Qed.

Lemma onSend_blank w : Js.blank (chat_input w) = true → ChatUI.onSend w = w.
Proof.
  intros Hb. unfold ChatUI.onSend, ChatUI.sendMessage. simpl. by rewrite Hb.
Qed.

(** The continuation appends one assistant message, or none when the updater
    throws, and leaves the render as it is. *)
Lemma sendMessage_settled_chatMessages o w :
  ∃ tail, chatMessages (app (ChatUI.sendMessage_settled o w))
          = chatMessages (app w) ++ tail
          ∧ Forall (λ m, role m = assistant) tail
          ∧ length tail ≤ 1
          ∧ chat_rendered (ChatUI.sendMessage_settled o w) = chat_rendered w.
Proof.
  unfold ChatUI.sendMessage_settled, ChatUI.on_catch.
  destruct o as [res|err]; [destruct (ChatUI.response_of res) as [v|]|]; simpl.
  - exists [mkMessage assistant v]. repeat split; simpl; auto.
  - exists []. rewrite app_nil_r. repeat split; simpl; auto.
  - eexists [_]. repeat split; simpl; auto.
Qed.

Lemma fetchRepo_chatMessages w :
  chatMessages (app (Dialog.fetchRepo (Dialog.render w) w)) = chatMessages (app w)
  ∧ chat_rendered (Dialog.fetchRepo (Dialog.render w) w) = chat_rendered w.
Proof.
  unfold Dialog.fetchRepo.
  by destruct (Js.blank (Dialog.r_repoUrl (Dialog.render w))).
Qed.

Lemma fetchRepo_settled_chatMessages id o w :
  chatMessages (app (Dialog.fetchRepo_settled id o w)) = chatMessages (app w)
  ∧ chat_rendered (Dialog.fetchRepo_settled id o w) = chat_rendered w.
Proof.
  unfold Dialog.fetchRepo_settled, Dialog.publish, Dialog.on_catch.
  destruct o as [res|err]; simpl.
  - destruct (Js.get res "data") as [d|]; simpl; [|done].
    destruct (Js.get d "issues"); simpl; [|done].
    by destruct (Js.get d "summary").
  - by destruct (Js.get err "message").
Qed.

(** What the render lacks of the store is assistant messages at its end: the
    replies that have settled since the last [commit]. *)
Lemma step_rendered_behind e w : rendered_behind w → rendered_behind (step e w).
Proof.
  intros (tail & Hw & Htail). unfold rendered_behind.
  destruct e as [s| | |o| |i o|id|p i|p i|s|b|]; cbn [step]; try by exists tail.
  - destruct (Js.blank (chat_input w)) eqn:Hb.
    + rewrite onSend_blank by done. by exists tail.
    + destruct (onSend_chatMessages w Hb) as [_ ->]. exists []. by rewrite app_nil_r.
  - destruct (ChatUI.send_disabled _); [by exists tail|].
    destruct (Js.blank (chat_input w)) eqn:Hb.
    + rewrite onSend_blank by done. by exists tail.
    + destruct (onSend_chatMessages w Hb) as [_ ->]. exists []. by rewrite app_nil_r.
  - destruct (askAI_pending w) as [|n]; [by exists tail|].
    destruct (sendMessage_settled_chatMessages o (set_askAI_pending n w))
      as (t & -> & Ht & _ & ->).
    exists (tail ++ t). simpl. rewrite Hw, <-(assoc_L (++)).
    split; [done|]. by apply Forall_app.
  - destruct (Dialog.fetch_disabled _); [by exists tail|].
    destruct (fetchRepo_chatMessages w) as [-> ->]. by exists tail.
  - destruct (processRepo_pending w !! i); [|by exists tail].
    destruct (fetchRepo_settled_chatMessages n o
                (set_processRepo_pending (delete i (processRepo_pending w)) w))
      as [-> ->].
    by exists tail.
  - destruct (bool_decide _); by exists tail.
  - destruct (modelOptions_of p !! i); by exists tail.
  - destruct (issueOptions_values _ ≫= _); by exists tail.
  - exists []. simpl. by rewrite app_nil_r.
Qed.

Lemma run_rendered_behind a evs : rendered_behind (run evs (init a)).
Proof.
  assert (∀ w, rendered_behind w → rendered_behind (run evs w)) as H.
  { induction evs as [|e evs IH]; intros w Hw; simpl; [done|].
    by apply IH, step_rendered_behind. }
  apply H. exists []. simpl. by rewrite app_nil_r.
Qed.

(** On a render that has caught up with the store, an event only adds to the
    end of the log. *)
Lemma step_chatMessages_prefix e w :
  chat_rendered w = chatMessages (app w) →
  chatMessages (app w) `prefix_of` chatMessages (app (step e w)).
Proof.
  intros Hw.
  destruct e as [s| | |o| |i o|id|p i|p i|s|b|]; cbn [step]; try done.
  - destruct (Js.blank (chat_input w)) eqn:Hb; [by rewrite onSend_blank|].
    destruct (onSend_chatMessages w Hb) as [-> _]. rewrite Hw. by apply prefix_app_r.
  - destruct (ChatUI.send_disabled _); [done|].
    destruct (Js.blank (chat_input w)) eqn:Hb; [by rewrite onSend_blank|].
    destruct (onSend_chatMessages w Hb) as [-> _]. rewrite Hw. by apply prefix_app_r.
  - destruct (askAI_pending w) as [|n] eqn:E; [done|].
    destruct (sendMessage_settled_chatMessages o (set_askAI_pending n w))
      as (t & -> & _).
    by apply prefix_app_r.
  - destruct (Dialog.fetch_disabled _); [done|].
    by destruct (fetchRepo_chatMessages w) as [-> _].
  - destruct (processRepo_pending w !! i); [|done].
    by destruct (fetchRepo_settled_chatMessages n o
                   (set_processRepo_pending (delete i (processRepo_pending w)) w))
      as [-> _].
  - by destruct (bool_decide _).
  - by destruct (modelOptions_of p !! i).
  - by destruct (issueOptions_values _ ≫= _).
Qed.

Lemma run_app evs1 evs2 w : run (evs1 ++ evs2) w = run evs2 (run evs1 w).
Proof. apply foldl_app. Qed.

(** C8 fails on the code.  [sendMessage] writes the log as
    [[...chatMessages, user]], from the [chatMessages] of its render, where
    its two other writes pass an updater [m => [...m, ...]].  A question is
    asked and answered; the second question is typed and Enter pressed
    before React has rendered the answer.  The log held the first question
    and its answer; after the call it holds the two questions, and the answer
    is gone: the log before is no prefix of the log after.  Had the render
    come first, the answer would have stayed. *)
Theorem sendMessage_drops_reply :
  let w := run [ChatInput (Js.lit "Why does it crash?"); ChatEnter;
                AskAISettles (Resolved Sample.answer);
                ChatInput (Js.lit "And on Linux?")] (init Sample.settled) in
  chatMessages (app w)
    = [ mkMessage user (Js.Str (Js.lit "Why does it crash?"));
        mkMessage assistant (Js.Str (Js.lit "Try upgrading.")) ]
  ∧ chat_rendered w = [ mkMessage user (Js.Str (Js.lit "Why does it crash?")) ]
  ∧ chatMessages (app (step ChatEnter w))
    = [ mkMessage user (Js.Str (Js.lit "Why does it crash?"));
        mkMessage user (Js.Str (Js.lit "And on Linux?")) ]
  ∧ ¬ chatMessages (app w) `prefix_of` chatMessages (app (step ChatEnter w))
  ∧ chatMessages (app (step ChatEnter (step Commit w)))
    = [ mkMessage user (Js.Str (Js.lit "Why does it crash?"));
        mkMessage assistant (Js.Str (Js.lit "Try upgrading."));
        mkMessage user (Js.Str (Js.lit "And on Linux?")) ].
Proof.
  vm_compute. repeat split.
  intros [k Hk]. discriminate Hk.
Qed.

(** The Send button, when it is enabled, runs the same call as the Enter
    key. *)
Lemma ChatSend_enabled w :
  ChatUI.send_disabled (ChatUI.render w) = false →
  step ChatSend w = step ChatEnter w.
Proof. intros Hd. cbn [step]. by rewrite Hd. Qed.

(** *** A failed query *)

(** C1, as the code has it.  When [backend.askAI] rejects, with whatever
    error, [sendMessage] appends exactly one assistant message whose text is
    the fixed string "Error occurred", clears the loading flag and sends
    nothing more.  The text is not empty, so the failure is not silent; it is
    the same for every error, so the kind of the error is not shown. *)
Theorem sendMessage_failure_placeholder w err :
  askAI_pending w ≠ 0 →
  let w' := step (AskAISettles (Rejected err)) w in
  chatMessages (app w')
    = chatMessages (app w) ++ [mkMessage assistant (Js.Str (Js.lit "Error occurred"))]
  ∧ Js.truthy (Js.Str (Js.lit "Error occurred")) = true
  ∧ chat_loading w' = false
  ∧ effects w' = effects w
  ∧ ∀ err', step (AskAISettles (Rejected err')) w = w'.
Proof.
  intros Hp w'. unfold w'. cbn [step].
  destruct (askAI_pending w) as [|n]; [done|].
  by repeat split.
Qed.

Lemma sendMessage_failure_placeholder_witness :
  chatMessages (app (step (AskAISettles (Rejected Sample.timeout_error)) Sample.asked))
  = chatMessages (app Sample.asked)
    ++ [mkMessage assistant (Js.Str (Js.lit "Error occurred"))].
Proof.
  destruct (sendMessage_failure_placeholder Sample.asked Sample.timeout_error)
    as [H _]; [vm_compute; discriminate|].
  exact H.
Defined.

(** C1 fails as stated: a generation timeout and a rejected input, two errors
    of different kinds, leave the chat in the same state, the user reading
    the placeholder in both cases. *)
Lemma sendMessage_error_kind_lost :
  Js.get Sample.timeout_error "name" ≠ Js.get Sample.rejected_error "name"
  ∧ step (AskAISettles (Rejected Sample.timeout_error)) Sample.asked
    = step (AskAISettles (Rejected Sample.rejected_error)) Sample.asked
  ∧ chatMessages (app (step (AskAISettles (Rejected Sample.timeout_error)) Sample.asked))
    = [ mkMessage user (Js.Str (Js.lit "Why does it crash?"));
        mkMessage assistant (Js.Str (Js.lit "Error occurred")) ].
Proof.
  split; [|split].
  - vm_compute. discriminate.
  - reflexivity.
  - reflexivity.
Qed.

(** A response whose [data.response] cannot be read is no failure to
    [sendMessage]: the [catch] does not run and no message is appended; the
    updater throws when React runs it, and the loading flag is cleared all
    the same. *)
Lemma sendMessage_settled_unreadable res w :
  ChatUI.response_of res = None →
  let w' := ChatUI.sendMessage_settled (Resolved res) w in
  chatMessages (app w') = chatMessages (app w)
  ∧ render_error w' = true
  ∧ chat_loading w' = false
  ∧ effects w' = effects w.
Proof.
  intros Hres. unfold ChatUI.sendMessage_settled. by rewrite Hres.
Qed.

(** *** The query payload *)

Lemma askAI_payload_keys r s :
  Js.keys (ChatUI.askAI_payload r s) = {["issue_id"; "prompt"; "model"]}.
Proof.
  unfold ChatUI.askAI_payload. simpl.
  rewrite !dom_insert_L, dom_empty_L. set_solver.
Qed.

Lemma askAI_payload_get r s :
  Js.get (ChatUI.askAI_payload r s) "issue_id" = Some (ChatUI.r_selectedIssue r)
  ∧ Js.get (ChatUI.askAI_payload r s) "prompt" = Some (Js.Str s)
  ∧ Js.get (ChatUI.askAI_payload r s) "model" = Some (ChatUI.r_selectedModel r).
Proof.
  unfold ChatUI.askAI_payload. simpl. by simplify_map_eq.
Qed.

Lemma sendMessage_effects w :
  Js.blank (chat_input w) = false →
  effects (ChatUI.onSend w)
  = effects w ++ [EAskAI (ChatUI.askAI_payload (ChatUI.render w) (chat_input w))].
Proof.
  intros Hb. unfold ChatUI.onSend, ChatUI.sendMessage. simpl. by rewrite Hb.
Qed.

(** C3, as the code has it.  The payload of every [askAI] request is an
    object with exactly the three properties [issue_id], [prompt] and [model],
    holding the selected issue, the submitted text and the selected model.
    It is the same in any two states that agree on these three, whatever
    repository either has ingested: the request names no session. *)
Theorem askAI_payload_fields w :
  Js.blank (chat_input w) = false →
  let p := ChatUI.askAI_payload (ChatUI.render w) (chat_input w) in
  effects (step ChatEnter w) = effects w ++ [EAskAI p]
  ∧ Js.keys p = {["issue_id"; "prompt"; "model"]}
  ∧ Js.get p "issue_id" = Some (selectedIssue (app w))
  ∧ Js.get p "prompt" = Some (Js.Str (chat_input w))
  ∧ Js.get p "model" = Some (selectedModel (app w))
  ∧ ∀ w', selectedIssue (app w') = selectedIssue (app w) →
          selectedModel (app w') = selectedModel (app w) →
          chat_input w' = chat_input w →
          effects (step ChatEnter w') = effects w' ++ [EAskAI p].
Proof.
  intros Hb p.
  destruct (askAI_payload_get (ChatUI.render w) (chat_input w)) as (Hi & Hp & Hm).
  split; [by apply sendMessage_effects|].
  split; [apply askAI_payload_keys|].
  do 3 (split; [done|]).
  intros w' Hi' Hm' Hin. cbn [step].
  rewrite sendMessage_effects by (by rewrite Hin).
  unfold p, ChatUI.askAI_payload, ChatUI.render. simpl.
  by rewrite Hi', Hm', Hin.
Qed.

Lemma askAI_payload_fields_witness :
  let w := step (ChatInput (Js.lit "Why does it crash?")) (init Sample.settled) in
  ∃ p, effects (step ChatEnter w) = [EAskAI p]
       ∧ Js.keys p = {["issue_id"; "prompt"; "model"]}
       ∧ Js.get p "issue_id" = Some (Js.Num 1)
       ∧ Js.get p "model" = Some Sample.gemini.
Proof.
  intros w.
  destruct (askAI_payload_fields w) as (He & Hk & Hi & _ & Hm & _); [reflexivity|].
  eexists. split; [exact He|]. split; [exact Hk|]. split; [exact Hi|exact Hm].
Defined.

(** C3 fails as stated: the request the sample chat sends carries no session
    key, and the same request leaves a client that ingested another
    repository. *)
Lemma askAI_payload_no_session_key :
  ∃ p, effects Sample.asked = [EAskAI p]
       ∧ ¬ carries_session_key p
       ∧ effects (run [RepoUrlInput (Js.lit "https://github.com/octo/other");
                       ChatInput (Js.lit "Why does it crash?"); ChatEnter]
                    (init Sample.settled)) = [EAskAI p].
Proof.
  eexists. split; [reflexivity|]. split; [|reflexivity].
  intros (k & Hk & Hnot). apply Hnot. revert Hk.
  match goal with |- k ∈ Js.keys ?p → _ =>
    change p with (ChatUI.askAI_payload
                     (ChatUI.render (step (ChatInput (Js.lit "Why does it crash?"))
                                       (init Sample.settled)))
                     (Js.lit "Why does it crash?"))
  end.
  by rewrite askAI_payload_keys.
Qed.

End SendMessage.

(** ** What each event leaves alone *)

Ltac handlers :=
  unfold ChatUI.onSend, ChatUI.sendMessage, ChatUI.sendMessage_settled,
    ChatUI.on_catch, commit, set_render_error,
    ChatUI.response_of, ChatUI.send_disabled,
    Dialog.fetchRepo, Dialog.fetchRepo_settled, Dialog.publish,
    Dialog.on_catch, Dialog.on_finally, Dialog.fetch_disabled,
    setInterval in *.

Ltac by_cases_on_step e :=
  destruct e; cbn [step] in *; handlers; simpl in *;
  repeat case_match; simplify_option_eq; try done.

Section Frames.

Implicit Types (w : World) (e : Event) (evs : list Event).

(** Only a choice in a model [CustomSelect] changes [selectedModel]. *)
Lemma step_selectedModel e w :
  picks_model e = false →
  selectedModel (app (step e w)) = selectedModel (app w).
Proof. intros He. by_cases_on_step e. Qed.

Lemma run_selectedModel evs w :
  forallb (λ e, negb (picks_model e)) evs = true →
  selectedModel (app (run evs w)) = selectedModel (app w).
Proof.
  revert w. induction evs as [|e evs IH]; intros w; simpl; [done|].
  intros [He Hevs]%andb_prop. rewrite IH by done.
  apply step_selectedModel. by destruct (picks_model e).
Qed.

End Frames.

(** ** Dialog: [fetchRepo] *)

Section FetchRepo.

Implicit Types (w : World) (e : Event) (evs : list Event) (o : Outcome).

(** *** A failed ingestion *)

(** While no [processRepo] call settles, an emptied issue list stays empty,
    an empty list offers no issue to pick, and the summary stays. *)
Lemma step_cleared e w :
  settles_processRepo e = false →
  issues (app w) = Js.Arr [] →
  selectedIssue (app w) = Js.Null →
  issues (app (step e w)) = Js.Arr []
  ∧ selectedIssue (app (step e w)) = Js.Null
  ∧ summary (app (step e w)) = summary (app w).
Proof.
  intros He Hi Hs. by_cases_on_step e.
  rewrite Hi in *. simplify_option_eq.
Qed.

Lemma run_cleared evs w :
  forallb (λ e, negb (settles_processRepo e)) evs = true →
  issues (app w) = Js.Arr [] →
  selectedIssue (app w) = Js.Null →
  issues (app (run evs w)) = Js.Arr []
  ∧ selectedIssue (app (run evs w)) = Js.Null
  ∧ summary (app (run evs w)) = summary (app w).
Proof.
  revert w. induction evs as [|e evs IH]; intros w; simpl; [done|].
  intros [He Hevs]%andb_prop Hi Hs.
  destruct (step_cleared e w) as (Hi' & Hs' & <-); [by destruct (settles_processRepo e)|done..|].
  by apply IH.
Qed.

Lemma fetchRepo_settled_failed id o w :
  Dialog.failed o →
  app (Dialog.fetchRepo_settled id o w) = app w.
Proof.
  intros Hf. unfold Dialog.fetchRepo_settled, Dialog.on_catch.
  destruct o as [res|err]; simpl in *.
  - by rewrite Hf.
  - by destruct (Js.get err "message").
Qed.

(** C2, as the code has it.  An invocation of [fetchRepo] on a blank URL only
    alerts and leaves the whole context state as it was.  An invocation on a
    non-blank URL whose request then fails (the promise rejects, or the
    response has no [data]), with any events but the settling of another
    ingestion in between, leaves the summary exactly as it was before the
    invocation, and leaves the issue list empty and no issue selected: these
    two are cleared when the invocation starts and the failure puts nothing
    back. *)
Theorem fetchRepo_failure_state w evs id o :
  Dialog.failed o →
  forallb (λ e, negb (settles_processRepo e)) evs = true →
  let w1 := Dialog.fetchRepo (Dialog.render w) w in
  let w2 := Dialog.fetchRepo_settled id o (run evs w1) in
  (Js.blank (repoUrl (app w)) = true → app w1 = app w)
  ∧ (Js.blank (repoUrl (app w)) = false →
     summary (app w2) = summary (app w)
     ∧ issues (app w2) = Js.Arr []
     ∧ selectedIssue (app w2) = Js.Null).
Proof.
  intros Hf Hevs w1 w2. split; intros Hb.
  - unfold w1, Dialog.fetchRepo. simpl. by rewrite Hb.
  - unfold w2. rewrite fetchRepo_settled_failed by done.
    assert (issues (app w1) = Js.Arr [] ∧ selectedIssue (app w1) = Js.Null
            ∧ summary (app w1) = summary (app w)) as (Hi & Hs & <-).
    { unfold w1, Dialog.fetchRepo. simpl. by rewrite Hb. }
    destruct (run_cleared evs w1) as (? & ? & ?); done.
Qed.

Lemma fetchRepo_failure_state_witness :
  let w := init Sample.settled in
  let w2 := run [FetchClick; Tick 0; PickIssue InSidebar 0;
                 ProcessRepoSettles 0 (Rejected Sample.fetch_error)] w in
  summary (app w2) = Js.Str (Js.lit "A demo repository.")
  ∧ issues (app w2) = Js.Arr []
  ∧ selectedIssue (app w2) = Js.Null.
Proof.
  intros w w2.
  destruct (fetchRepo_failure_state w [Tick 0; PickIssue InSidebar 0] 0
              (Rejected Sample.fetch_error)) as [_ H]; [exact I|reflexivity|].
  apply H. reflexivity.
Defined.

(** C2 fails as stated: the session of the sample, with two issues listed and
    the first one selected, loses both when a new ingestion fails. *)
Lemma fetchRepo_failure_clears_issues :
  let w := init Sample.settled in
  let w' := run [FetchClick; ProcessRepoSettles 0 (Rejected Sample.fetch_error)] w in
  issues (app w) = Js.Arr [Sample.issue1; Sample.issue2]
  ∧ selectedIssue (app w) = Js.Num 1
  ∧ issues (app w') = Js.Arr []
  ∧ selectedIssue (app w') = Js.Null
  ∧ issues (app w') ≠ issues (app w)
  ∧ selectedIssue (app w') ≠ selectedIssue (app w).
Proof. by repeat split. Qed.

(** *** One ingestion at a time *)

Lemma step_one_fetch e w : one_fetch w → one_fetch (step e w).
Proof.
  intros [Hlen Hload]. unfold one_fetch in *.
  by_cases_on_step e.
  all: destruct (processRepo_pending w) as [|x [|y l]] eqn:E; simpl in *; try lia.
  all: try (split; [lia|congruence]).
  all: try done.
  all: match goal with H : _ !! ?i = Some _ |- _ => destruct i; simplify_eq/= end.
  all: by (split; [lia|]).
Qed.

Lemma run_one_fetch evs w : one_fetch w → one_fetch (run evs w).
Proof.
  revert w. induction evs as [|e evs IH]; intros w Hw; simpl; [done|].
  by apply IH, step_one_fetch.
Qed.

Lemma init_one_fetch a : one_fetch (init a).
Proof. split; simpl; [lia|done]. Qed.

(** C5.  In every state the client reaches from its initial one, whatever the
    context state it starts with and whatever the user and the network do, at
    most one [processRepo] call is in flight; while one is, [loading] is true,
    the Fetch button is disabled and a click on it is rejected: it changes
    nothing and starts no second call. *)
Theorem fetchRepo_one_at_a_time a evs :
  let w := run evs (init a) in
  length (processRepo_pending w) ≤ 1
  ∧ (processRepo_pending w ≠ [] ↔ dlg_loading w = true)
  ∧ (dlg_loading w = true →
     Dialog.fetch_disabled (Dialog.render w) = true ∧ step FetchClick w = w).
Proof.
  intros w.
  destruct (run_one_fetch evs (init a) (init_one_fetch a)) as [Hlen Hload].
  fold w in Hlen, Hload. split; [exact Hlen|]. split.
  - rewrite Hload. by rewrite bool_decide_eq_true.
  - intros Ht. cbn [step]. unfold Dialog.fetch_disabled. simpl. by rewrite Ht.
Qed.

(** The invariant is the button's doing: [fetchRepo] itself has no guard, and
    called twice in a row it starts two requests. *)
Lemma fetchRepo_unguarded :
  let w := init Sample.fresh in
  let w1 := Dialog.fetchRepo (Dialog.render w) w in
  processRepo_pending (Dialog.fetchRepo (Dialog.render w1) w1) = [0; 1].
Proof. reflexivity. Qed.

(** *** The progress step *)

Lemma next_step_valid z :
  (0 ≤ z ≤ Z.of_nat (length Dialog.PROCESSING_STEPS) - 1)%Z →
  (0 ≤ Dialog.next_step z ≤ Z.of_nat (length Dialog.PROCESSING_STEPS) - 1)%Z.
Proof.
  unfold Dialog.next_step. intros Hz.
  destruct (Z.ltb_spec z (Z.of_nat (length Dialog.PROCESSING_STEPS) - 1)); lia.
Qed.

Lemma step_valid_step e w : valid_step w → valid_step (step e w).
Proof.
  unfold valid_step. intros Hw.
  destruct e as [s| | |o| |i o|id|p i|p i|s|b|]; cbn [step]; try done.
  - unfold ChatUI.onSend, ChatUI.sendMessage. simpl.
    by destruct (Js.blank (chat_input w)).
  - destruct (ChatUI.send_disabled _); [done|].
    unfold ChatUI.onSend, ChatUI.sendMessage. simpl.
    by destruct (Js.blank (chat_input w)).
  - destruct (askAI_pending w); [done|].
    unfold ChatUI.sendMessage_settled, ChatUI.on_catch.
    destruct o as [res|err]; [destruct (ChatUI.response_of res)|]; done.
  - destruct (Dialog.fetch_disabled _); [done|].
    unfold Dialog.fetchRepo. destruct (Js.blank _); [done|]. simpl. lia.
  - destruct (processRepo_pending w !! i); [|done]. simpl. lia.
  - destruct (bool_decide _); [|done]. by apply next_step_valid.
  - by destruct (modelOptions_of p !! i).
  - by destruct (issueOptions_values _ ≫= _).
Qed.

Lemma run_valid_step evs w : valid_step w → valid_step (run evs w).
Proof.
  revert w. induction evs as [|e evs IH]; intros w Hw; simpl; [done|].
  by apply IH, step_valid_step.
Qed.

Lemma valid_step_label w :
  valid_step w → is_Some (Dialog.step_label (Dialog.render w)).
Proof.
  unfold valid_step, Dialog.step_label. simpl. intros Hw.
  destruct (Z.ltb_spec (dlg_currentStep w) 0); [lia|].
  apply lookup_lt_is_Some. simpl in *. lia.
Qed.

(** C10.  In every state the client reaches from its initial one, before,
    during and after any number of [fetchRepo] calls and interval ticks,
    [0 <= currentStep <= PROCESSING_STEPS.length - 1], and
    [PROCESSING_STEPS[currentStep]] is one of the strings of the list. *)
Theorem currentStep_in_range a evs :
  let w := run evs (init a) in
  (0 ≤ dlg_currentStep w ≤ Z.of_nat (length Dialog.PROCESSING_STEPS) - 1)%Z
  ∧ ∃ s, Dialog.step_label (Dialog.render w) = Some s
         ∧ s ∈ Dialog.PROCESSING_STEPS.
Proof.
  intros w.
  assert (valid_step w) as Hw.
  { apply run_valid_step. unfold valid_step. simpl. lia. }
  split; [exact Hw|].
  destruct (valid_step_label w Hw) as [s Hs]. exists s. split; [exact Hs|].
  unfold Dialog.step_label in Hs. simpl in Hs.
  destruct (dlg_currentStep w <? 0)%Z; [done|].
  by eapply list_elem_of_lookup_2.
Qed.

(** *** A successful ingestion *)

(** On a response with a [data] object the [try] runs to its end, and stores
    the two properties of [data] through [||]. *)
Lemma publish_data res (data : gmap string Js.Value) w :
  Js.get res "data" = Some (Js.Obj data) →
  Dialog.publish res w
  = Some (setSummary (Js.or (default Js.Undefined (data !! "summary")) (Js.Str []))
            (setIssues (Js.or (default Js.Undefined (data !! "issues")) (Js.Arr [])) w)).
Proof. intros Hd. unfold Dialog.publish. by rewrite Hd. Qed.

(** Whatever a response holds, what [publish] stores as the summary is not
    [undefined], and what it stores as the issue list is not either. *)
Lemma publish_defined res w w' :
  Dialog.publish res w = Some w' →
  summary (app w') ≠ Js.Undefined ∧ issues (app w') ≠ Js.Undefined.
Proof.
  unfold Dialog.publish, Js.or. intros H. simplify_option_eq.
  split; repeat case_match; simplify_eq/=; try done.
  all: by intros ->.
Qed.

(** C6.  A successful ingestion response carries a [data] object whose
    [issues] property is an array or absent and whose [summary] property is a
    string or absent.  After it, the issue list of the context is
    [data.issues], or the empty list when that property is absent, and the
    summary is [data.summary], or the empty string when that property is
    absent; the summary is a string. *)
Theorem fetchRepo_publishes_response w id res (data : gmap string Js.Value) :
  Js.get res "data" = Some (Js.Obj data) →
  (data !! "issues" = None ∨ ∃ l, data !! "issues" = Some (Js.Arr l)) →
  (data !! "summary" = None ∨ ∃ s, data !! "summary" = Some (Js.Str s)) →
  let w' := Dialog.fetchRepo_settled id (Resolved res) w in
  issues (app w') = default (Js.Arr []) (data !! "issues")
  ∧ summary (app w') = default (Js.Str []) (data !! "summary")
  ∧ ∃ s, summary (app w') = Js.Str s.
Proof.
  intros Hd Hi Hs w'. unfold w', Dialog.fetchRepo_settled.
  rewrite (publish_data res data) by done. simpl.
  assert (Js.or (default Js.Undefined (data !! "issues")) (Js.Arr [])
          = default (Js.Arr []) (data !! "issues")) as ->.
  { destruct Hi as [->|[l ->]]; done. }
  assert (Js.or (default Js.Undefined (data !! "summary")) (Js.Str [])
          = default (Js.Str []) (data !! "summary")) as ->.
  { destruct Hs as [->|[[|c s] ->]]; done. }
  do 2 (split; [done|]).
  destruct Hs as [->|[s ->]]; simpl; eauto.
Qed.

Lemma fetchRepo_publishes_response_witness :
  let w := step FetchClick (init Sample.fresh) in
  let w' := step (ProcessRepoSettles 0 (Resolved Sample.response)) w in
  issues (app w') = Js.Arr [Sample.issue1; Sample.issue2]
  ∧ summary (app w') = Js.Str (Js.lit "A demo repository.")
  ∧ ∃ s, summary (app w') = Js.Str s.
Proof.
  intros w w'.
  pose proof (fetchRepo_publishes_response
                (set_processRepo_pending [] w) 0 Sample.response Sample.data) as H.
  vm_compute in H |- *. apply H.
  - reflexivity.
  - right. eexists. reflexivity.
  - right. eexists. reflexivity.
Defined.

End FetchRepo.

(** ** The model selection *)

Section Models.

Implicit Types (w : World) (e : Event) (evs : list Event).

Lemma processRepo_payload_model r :
  Js.get (Dialog.processRepo_payload r) "model" = Some (Dialog.r_selectedModel r).
Proof. unfold Dialog.processRepo_payload. simpl. by simplify_map_eq. Qed.

Lemma fetchRepo_effects w :
  Js.blank (repoUrl (app w)) = false →
  effects (Dialog.fetchRepo (Dialog.render w) w)
  = effects w ++ [EProcessRepo (Dialog.processRepo_payload (Dialog.render w))].
Proof. intros Hb. unfold Dialog.fetchRepo. simpl. by rewrite Hb. Qed.

(** C4, as the code has it.  An ingestion names the model selected when
    [fetchRepo] is called, and a query names the model selected when
    [sendMessage] is called: each request reads the selection of its own
    moment.  The query goes to the backend of the ingestion when no model was
    picked in a [CustomSelect] between the two. *)
Theorem query_uses_current_model w evs :
  Js.blank (repoUrl (app w)) = false →
  let w1 := Dialog.fetchRepo (Dialog.render w) w in
  let w2 := run evs w1 in
  Js.blank (chat_input w2) = false →
  ∃ p q,
    effects w1 = effects w ++ [EProcessRepo p]
    ∧ effects (step ChatEnter w2) = effects w2 ++ [EAskAI q]
    ∧ Js.get p "model" = Some (selectedModel (app w))
    ∧ Js.get q "model" = Some (selectedModel (app w2))
    ∧ (forallb (λ e, negb (picks_model e)) evs = true →
       Js.get q "model" = Js.get p "model").
Proof.
  intros Hurl w1 w2 Hin.
  exists (Dialog.processRepo_payload (Dialog.render w)),
         (ChatUI.askAI_payload (ChatUI.render w2) (chat_input w2)).
  destruct (askAI_payload_get (ChatUI.render w2) (chat_input w2)) as (_ & _ & Hq).
  split; [by apply fetchRepo_effects|].
  split; [by apply sendMessage_effects|].
  split; [apply processRepo_payload_model|].
  split; [exact Hq|].
  intros Hevs. rewrite Hq, processRepo_payload_model. simpl. f_equal.
  unfold w2. rewrite run_selectedModel by done.
  unfold w1, Dialog.fetchRepo. simpl. by rewrite Hurl.
Qed.

Lemma query_uses_current_model_witness :
  let w := init Sample.fresh in
  let evs := [ProcessRepoSettles 0 (Resolved Sample.response); PickIssue InDialog 0;
              ChatInput (Js.lit "Why does it crash?")] in
  let w1 := Dialog.fetchRepo (Dialog.render w) w in
  let w2 := run evs w1 in
  ∃ p q,
    effects w1 = [EProcessRepo p]
    ∧ effects (step ChatEnter w2) = effects w2 ++ [EAskAI q]
    ∧ Js.get p "model" = Some Sample.gemini
    ∧ Js.get q "model" = Some Sample.gemini.
Proof.
  intros w evs w1 w2.
  destruct (query_uses_current_model w evs) as (p & q & Hp & Hq & Hpm & _ & Hsame);
    [vm_compute; reflexivity..|].
  exists p, q. split; [exact Hp|]. split; [exact Hq|]. split; [exact Hpm|].
  rewrite Hsame by (vm_compute; reflexivity). exact Hpm.
Defined.

(** C4 fails as stated: a repository is ingested with Gemini, the user picks
    the second model in the sidebar, and the next question goes to Groq with
    no ingestion in between. *)
Lemma backend_switched_without_ingestion :
  let w := run [FetchClick; ProcessRepoSettles 0 (Resolved Sample.response);
                PickIssue InDialog 0; PickModel InSidebar 1;
                ChatInput (Js.lit "Why does it crash?"); ChatEnter]
             (init Sample.fresh) in
  request_model <$> effects w = [Some Sample.gemini; Some Sample.groq]
  ∧ ¬ backend_fixed None (effects w).
Proof.
  split; [vm_compute; reflexivity|].
  vm_compute. intros [H _]. discriminate H.
Qed.

(** *** The offered models *)

Lemma modelOptions_of_values p :
  value <$> modelOptions_of p = [Js.Str (Js.lit "gemini"); Js.Str (Js.lit "groq")].
Proof. by destruct p. Qed.

Lemma step_selectedModel_offered e w :
  selectedModel (app w) ∈ [Js.Str (Js.lit "gemini"); Js.Str (Js.lit "groq")] →
  selectedModel (app (step e w)) ∈ [Js.Str (Js.lit "gemini"); Js.Str (Js.lit "groq")].
Proof.
  intros Hw. destruct (picks_model e) eqn:He.
  - destruct e as [| | | | | | |p i| | | |]; try discriminate He. cbn [step].
    destruct (modelOptions_of p !! i) as [o|] eqn:Ho; [|done]. simpl.
    rewrite <-(modelOptions_of_values p).
    apply list_elem_of_fmap. exists o. split; [done|].
    by eapply list_elem_of_lookup_2.
  - by rewrite step_selectedModel.
Qed.

(** C7.  In every render the model [CustomSelect] of [Dialog] and the one of
    [Sidebar] list exactly two options, whose values are "gemini" and "groq",
    two different strings.  Whatever option [o] the user picks in either
    control is one of these two, and it becomes the selected model; a
    selection that is one of the two stays one of the two through every
    run of events. *)
Theorem modelOptions_two_backends p i o w :
  modelOptions_of p !! i = Some o →
  value <$> Dialog.modelOptions = [Js.Str (Js.lit "gemini"); Js.Str (Js.lit "groq")]
  ∧ value <$> Sidebar.modelOptions = [Js.Str (Js.lit "gemini"); Js.Str (Js.lit "groq")]
  ∧ Js.Str (Js.lit "gemini") ≠ Js.Str (Js.lit "groq")
  ∧ (value o = Js.Str (Js.lit "gemini") ∨ value o = Js.Str (Js.lit "groq"))
  ∧ selectedModel (app (step (PickModel p i) w)) = value o
  ∧ (∀ evs w0,
       selectedModel (app w0) ∈ [Js.Str (Js.lit "gemini"); Js.Str (Js.lit "groq")] →
       selectedModel (app (run evs w0))
         ∈ [Js.Str (Js.lit "gemini"); Js.Str (Js.lit "groq")]).
Proof.
  intros Ho. do 3 (split; [done|]). split; [|split].
  - destruct p, i as [|[|i]]; simplify_eq/=; auto.
  - cbn [step]. by rewrite Ho.
  - intros evs. induction evs as [|e evs IH]; intros w0 Hw0; simpl; [done|].
    by apply IH, step_selectedModel_offered.
Qed.

Lemma modelOptions_two_backends_witness :
  selectedModel (app (step (PickModel InSidebar 1) (init Sample.settled)))
  = Js.Str (Js.lit "groq").
Proof.
  destruct (modelOptions_two_backends InSidebar 1
              (mkOption (Js.Str (Js.lit "groq")) "ChatGPT-OSS") (init Sample.settled))
    as (_ & _ & _ & _ & H & _); [reflexivity|].
  exact H.
Defined.

End Models.

(** * The rest of the behaviour *)

(** ** The chat over a whole run *)

Section ChatRun.

Implicit Types (w : World) (e : Event) (evs : list Event) (a : AppState).

Lemma prompts_snoc_askAI es r s :
  prompts (es ++ [EAskAI (ChatUI.askAI_payload r s)]) = prompts es ++ [Js.Str s].
Proof.
  unfold prompts. rewrite omap_app.
  destruct (askAI_payload_get r s) as (_ & Hp & _).
  cbn [omap list_omap]. by rewrite Hp.
Qed.

Lemma prompts_snoc_other es (x : Effect) :
  (∀ p, x ≠ EAskAI p) → prompts (es ++ [x]) = prompts es.
Proof.
  intros Hx. unfold prompts. rewrite omap_app. simpl.
  destruct x as [p| |]; [by destruct (Hx p)|..]; by rewrite app_nil_r.
Qed.

Lemma texts_of_snoc who ms m :
  texts_of who (ms ++ [m])
  = texts_of who ms ++ (if bool_decide (who = role m) then [text m] else []).
Proof.
  unfold texts_of. rewrite omap_app. simpl.
  by destruct who, (role m).
Qed.

Lemma texts_of_app who ms1 ms2 :
  texts_of who (ms1 ++ ms2) = texts_of who ms1 ++ texts_of who ms2.
Proof. apply omap_app. Qed.

Lemma texts_of_length who ms : length (texts_of who ms) ≤ length ms.
Proof.
  induction ms as [|m ms IH]; [done|].
  change (m :: ms) with ([m] ++ ms). rewrite texts_of_app, !length_app.
  assert (length (texts_of who [m]) ≤ 1) by (destruct who, m as [[] ?]; simpl; lia).
  simpl in *. lia.
Qed.

Lemma texts_of_user_replies tail :
  Forall (λ m, role m = assistant) tail → texts_of user tail = [].
Proof. induction 1 as [|m tail Hm _ IH]; simpl; [done|]. by rewrite Hm. Qed.

Lemma onSend_chat_accounts a w :
  chat_accounts a w → chat_accounts a (ChatUI.onSend w).
Proof.
  intros (Hr & Hu & Ha & Hl & Hp).
  destruct (Js.blank (chat_input w)) eqn:Hb; [by rewrite onSend_blank|].
  destruct (onSend_chatMessages w Hb) as [Hlog Hren].
  destruct Hr as (tail & Hw & Htail).
  assert (effects (ChatUI.onSend w)
          = effects w ++ [EAskAI (ChatUI.askAI_payload (ChatUI.render w) (chat_input w))]
          ∧ askAI_pending (ChatUI.onSend w) = S (askAI_pending w)
          ∧ chat_loading (ChatUI.onSend w) = true) as (He & Hn & _).
  { unfold ChatUI.onSend, ChatUI.sendMessage. simpl. by rewrite Hb. }
  rewrite Hw, !texts_of_app, length_app in *.
  rewrite (texts_of_user_replies tail), app_nil_r in Hu by done.
  unfold chat_accounts, rendered_behind.
  rewrite He, Hn, Hlog, prompts_snoc_askAI, !texts_of_snoc.
  simpl. rewrite app_nil_r, Hu, length_app. simpl.
  split; [exists []; by rewrite Hren, Hlog, app_nil_r|].
  split; [by rewrite (assoc_L (++))|]. split; [lia|]. split; [done|].
  apply Forall_app. split; [done|]. apply Forall_singleton.
  exists (chat_input w). split; [done|]. by rewrite <-blank_whitespace_only.
Qed.

Lemma sendMessage_settled_chat_accounts a o n w :
  askAI_pending w = S n →
  chat_accounts a w →
  chat_accounts a (ChatUI.sendMessage_settled o (set_askAI_pending n w)).
Proof.
  intros Hn (Hr & Hu & Ha & Hl & Hp).
  destruct Hr as (tail & Hw & Htail).
  destruct (sendMessage_settled_chatMessages o (set_askAI_pending n w))
    as (t & Hv & Ht & Hlen & Hren).
  assert (effects (ChatUI.sendMessage_settled o (set_askAI_pending n w)) = effects w
          ∧ askAI_pending (ChatUI.sendMessage_settled o (set_askAI_pending n w)) = n
          ∧ chat_loading (ChatUI.sendMessage_settled o (set_askAI_pending n w)) = false)
    as (He & Hpn & Hf).
  { unfold ChatUI.sendMessage_settled, ChatUI.on_catch.
    destruct o as [res|err]; [destruct (ChatUI.response_of res)|]; done. }
  unfold chat_accounts, rendered_behind. rewrite Hv, Hren, He, Hpn, Hf.
  split; [|split; [|split; [|split]]]; try done.
  - exists (tail ++ t). simpl. rewrite Hw, <-(assoc_L (++)).
    split; [done|]. by apply Forall_app.
  - by rewrite texts_of_app, (texts_of_user_replies t), app_nil_r.
  - rewrite texts_of_app, length_app.
    pose proof (texts_of_length assistant t). simpl in *. lia.
Qed.

Lemma fetchRepo_chat_accounts a w :
  chat_accounts a w → chat_accounts a (Dialog.fetchRepo (Dialog.render w) w).
Proof.
  intros (Hr & Hu & Ha & Hl & Hp). unfold Dialog.fetchRepo.
  destruct (Js.blank (Dialog.r_repoUrl (Dialog.render w)));
    unfold chat_accounts, rendered_behind; simpl;
    by rewrite prompts_snoc_other.
Qed.

Lemma fetchRepo_settled_chat_accounts a id o l w :
  chat_accounts a w →
  chat_accounts a (Dialog.fetchRepo_settled id o (set_processRepo_pending l w)).
Proof.
  intros (Hr & Hu & Ha & Hl & Hp).
  unfold chat_accounts, rendered_behind, Dialog.fetchRepo_settled, Dialog.publish,
    Dialog.on_catch.
  destruct o as [res|err]; simpl.
  - destruct (Js.get res "data") as [d|]; simpl; [|by rewrite prompts_snoc_other].
    destruct (Js.get d "issues"); simpl; [|by rewrite prompts_snoc_other].
    destruct (Js.get d "summary"); simpl; [done|by rewrite prompts_snoc_other].
  - destruct (Js.get err "message"); simpl; [by rewrite prompts_snoc_other|done].
Qed.

Lemma step_chat_accounts a e w : chat_accounts a w → chat_accounts a (step e w).
Proof.
  intros Hw. destruct e as [s| | |o| |i o|id|p i|p i|s|b|]; cbn [step]; try done.
  - by apply onSend_chat_accounts.
  - destruct (ChatUI.send_disabled _); [done|]. by apply onSend_chat_accounts.
  - destruct (askAI_pending w) as [|n] eqn:Hn; [done|].
    by apply sendMessage_settled_chat_accounts.
  - destruct (Dialog.fetch_disabled _); [done|]. by apply fetchRepo_chat_accounts.
  - destruct (processRepo_pending w !! i); [|done].
    by apply fetchRepo_settled_chat_accounts.
  - by destruct (bool_decide _).
  - by destruct (modelOptions_of p !! i).
  - by destruct (issueOptions_values _ ≫= _).
  - destruct Hw as (Hr & Hrest). split; [|exact Hrest].
    exists []. simpl. by rewrite app_nil_r.
Qed.

Lemma run_chat_accounts a evs : chat_accounts a (run evs (init a)).
Proof.
  assert (∀ w, chat_accounts a w → chat_accounts a (run evs w)) as H.
  { induction evs as [|e evs IH]; intros w Hw; simpl; [done|].
    by apply IH, step_chat_accounts. }
  apply H. unfold chat_accounts. simpl. rewrite app_nil_r.
  split; [exists []; simpl; by rewrite app_nil_r|].
  split; [done|]. split; [lia|]. by split.
Qed.

(** X1.  In every state the client reaches from its initial one, the user
    messages the chat log has gained are, in order, exactly the prompts of the
    [askAI] requests sent: every question shown was sent once, and nothing was
    sent that is not shown. *)
Theorem prompts_are_user_messages a evs :
  let w := run evs (init a) in
  texts_of user (chatMessages (app w))
  = texts_of user (chatMessages a) ++ prompts (effects w).
Proof. intros w. by destruct (run_chat_accounts a evs) as (_ & H & _). Qed.

(** X2.  In every state the client reaches from its initial one, the
    assistant messages the chat log has gained and the [askAI] requests still
    pending are together no more than the prompts sent: a request gets at
    most one assistant message when it settles, never two.  (It gets none
    when its reply cannot be read, and a reply is lost again when
    [sendMessage] runs before React has rendered it.) *)
Theorem replies_within_prompts a evs :
  let w := run evs (init a) in
  length (texts_of assistant (chatMessages (app w))) + askAI_pending w
  ≤ length (texts_of assistant (chatMessages a)) + length (prompts (effects w)).
Proof. intros w. by destruct (run_chat_accounts a evs) as (_ & _ & H & _). Qed.

(** X3.  No [askAI] request the client ever sends has a blank prompt: every
    prompt is a string with a code unit that is no white space. *)
Theorem prompts_never_blank a evs :
  Forall spoken (prompts (effects (run evs (init a)))).
Proof. by destruct (run_chat_accounts a evs) as (_ & _ & _ & _ & H). Qed.

Lemma sendMessage_settled_flags o w :
  chat_loading (ChatUI.sendMessage_settled o w) = false
  ∧ askAI_pending (ChatUI.sendMessage_settled o w) = askAI_pending w
  ∧ effects (ChatUI.sendMessage_settled o w) = effects w.
Proof.
  unfold ChatUI.sendMessage_settled, ChatUI.on_catch.
  destruct o as [res|err]; [destruct (ChatUI.response_of res)|]; done.
Qed.

(** X4.  The Thinking indicator is on only while a request is pending, but
    not as long as one is: in every reachable state [loading] implies a
    pending [askAI] call, and the settling of any one call, whatever its
    outcome, turns [loading] off and leaves the other calls pending. *)
Theorem thinking_only_while_pending a evs o :
  let w := run evs (init a) in
  (chat_loading w = true → askAI_pending w ≠ 0)
  ∧ (askAI_pending w ≠ 0 →
     chat_loading (step (AskAISettles o) w) = false
     ∧ S (askAI_pending (step (AskAISettles o) w)) = askAI_pending w).
Proof.
  intros w. destruct (run_chat_accounts a evs) as (_ & _ & _ & H & _).
  split; [exact H|]. intros Hp. cbn [step].
  destruct (askAI_pending w) as [|n]; [done|].
  by destruct (sendMessage_settled_flags o (set_askAI_pending n w)) as (-> & -> & _).
Qed.

(** Two questions in flight, one answered: the indicator is off and a
    request is still pending. *)
Lemma thinking_only_while_pending_witness :
  let w := run [ChatInput (Js.lit "And on Linux?"); ChatEnter] Sample.asked in
  askAI_pending w = 2
  ∧ chat_loading (step (AskAISettles (Resolved Sample.answer)) w) = false
  ∧ askAI_pending (step (AskAISettles (Resolved Sample.answer)) w) = 1.
Proof.
  pose proof (thinking_only_while_pending Sample.settled
    [ChatInput (Js.lit "Why does it crash?"); ChatEnter;
     ChatInput (Js.lit "And on Linux?"); ChatEnter] (Resolved Sample.answer)) as [_ H].
  vm_compute in H |- *.
  destruct H as [H1 H2]; [discriminate|].
  split; [reflexivity|]. split; [exact H1|reflexivity].
Defined.

(** *** The keys and the button *)

Lemma sendMessage_once w : ChatUI.onSend (ChatUI.onSend w) = ChatUI.onSend w.
Proof.
  destruct (Js.blank (chat_input w)) eqn:Hb.
  - by rewrite !(onSend_blank w Hb).
  - apply onSend_blank. unfold ChatUI.onSend, ChatUI.sendMessage. simpl.
    by rewrite Hb.
Qed.

(** X5.  A key press in the chat input sends at most once.  Any key but
    Enter, and Enter with Shift, changes nothing; Enter is the [sendMessage]
    call; and the same key pressed again right after changes nothing more,
    the first press having emptied the input. *)
Theorem onKeyPress_once key shiftKey w :
  let w' := ChatUI_onKeyPress key shiftKey w in
  (key ≠ Js.lit "Enter" ∨ shiftKey = true → w' = w)
  ∧ (key = Js.lit "Enter" → shiftKey = false → w' = step ChatEnter w)
  ∧ ChatUI_onKeyPress key shiftKey w' = w'.
Proof.
  intros w'. unfold w', ChatUI_onKeyPress.
  destruct (bool_decide_reflect (key = Js.lit "Enter")) as [->|Hk];
    destruct shiftKey; simpl; repeat split; try done.
  - intros [?|?]; done.
  - apply sendMessage_once.
Qed.

Lemma onKeyPress_once_witness :
  let w := step (ChatInput (Js.lit "Why does it crash?")) (init Sample.settled) in
  ChatUI_onKeyPress (Js.lit "Enter") true w = w
  ∧ ChatUI_onKeyPress (Js.lit "Enter") false w = Sample.asked
  ∧ ChatUI_onKeyPress (Js.lit "Enter") false Sample.asked = Sample.asked.
Proof.
  intros w.
  destruct (onKeyPress_once (Js.lit "Enter") true w) as (H1 & _ & _).
  destruct (onKeyPress_once (Js.lit "Enter") false w) as (_ & H2 & H3).
  specialize (H1 (or_intror eq_refl)). specialize (H2 eq_refl eq_refl).
  rewrite H2 in H3. vm_compute in H1, H2, H3 |- *.
  split; [exact H1|]. split; [exact H2|exact H3].
Defined.

(** X6.  The loading flag gates the Send button only.  While a reply is
    awaited a click on Send does nothing, whatever the input; the Enter key
    on a non-blank input sends a second request all the same. *)
Theorem enter_not_gated_by_loading w :
  chat_loading w = true →
  Js.blank (chat_input w) = false →
  step ChatSend w = w
  ∧ askAI_pending (step ChatEnter w) = S (askAI_pending w)
  ∧ effects (step ChatEnter w)
    = effects w ++ [EAskAI (ChatUI.askAI_payload (ChatUI.render w) (chat_input w))].
Proof.
  intros Hl Hb. cbn [step]. unfold ChatUI.send_disabled. simpl. rewrite Hl. simpl.
  split; [done|]. unfold ChatUI.onSend, ChatUI.sendMessage. simpl. by rewrite Hb.
Qed.

Lemma enter_not_gated_by_loading_witness :
  let w := step (ChatInput (Js.lit "And on Linux?")) Sample.asked in
  step ChatSend w = w ∧ askAI_pending (step ChatEnter w) = 2.
Proof.
  intros w.
  destruct (enter_not_gated_by_loading w) as (H1 & H2 & _);
    [vm_compute; reflexivity..|].
  vm_compute in H1, H2 |- *. split; [exact H1|exact H2].
Defined.

End ChatRun.

(** ** The dialog over a whole run *)

Section DialogRun.

Implicit Types (w : World) (e : Event) (evs : list Event) (a : AppState).

Lemma step_dialog_accounts e w : dialog_accounts w → dialog_accounts (step e w).
Proof.
  intros ([Hlen Hload] & Ht & Hs). unfold dialog_accounts, one_fetch in *.
  by_cases_on_step e.
  all: destruct (processRepo_pending w) as [|x [|y l]] eqn:E; simpl in *; try lia.
  all: try match goal with H : _ !! ?i = Some _ |- _ => destruct i; simplify_eq/= end.
  all: try match goal with H : _ ∈ timers _ |- _ =>
             rewrite Ht in H; try by apply elem_of_nil in H end.
  all: rewrite ?Ht, ?filter_cons_False, ?filter_nil by (by intros ?).
  all: repeat split; try lia; try done; try congruence.
Qed.

Lemma run_dialog_accounts a evs : dialog_accounts (run evs (init a)).
Proof.
  assert (∀ w, dialog_accounts w → dialog_accounts (run evs w)) as H.
  { induction evs as [|e evs IH]; intros w Hw; simpl; [done|].
    by apply IH, step_dialog_accounts. }
  apply H. repeat split; simpl; done || lia.
Qed.

(** X7.  The dialog leaks no interval.  In every state the client reaches
    from its initial one, the live intervals are those of the [processRepo]
    calls in flight; and while [loading] is false none is live, the step is
    0, and a tick of any interval, also of one long cleared, changes
    nothing. *)
Theorem dialog_idle_when_not_loading a evs id :
  let w := run evs (init a) in
  timers w = processRepo_pending w
  ∧ (dlg_loading w = false →
     dlg_currentStep w = 0%Z ∧ timers w = [] ∧ step (Tick id) w = w).
Proof.
  intros w. destruct (run_dialog_accounts a evs) as ([_ Hload] & Ht & Hs).
  fold w in Hload, Ht, Hs. split; [exact Ht|]. intros Hl.
  assert (timers w = []) as Hnil.
  { rewrite Ht. rewrite Hl in Hload. symmetry in Hload.
    apply bool_decide_eq_false in Hload. by apply dec_stable. }
  split; [by apply Hs|]. split; [exact Hnil|].
  cbn [step]. rewrite Hnil. by rewrite bool_decide_eq_false_2 by apply not_elem_of_nil.
Qed.




(** *** The progress text *)

Lemma iter_next_step n z :
  (0 ≤ z ≤ 6)%Z →
  Nat.iter n Dialog.next_step z = Z.min (z + Z.of_nat n) 6.
Proof.
  intros Hz. induction n as [|n IH]; simpl.
  - lia.
  - rewrite IH. unfold Dialog.next_step. simpl length.
    destruct (Z.ltb_spec (Z.min (z + Z.of_nat n) 6) (Z.of_nat 7 - 1)); lia.
Qed.

Lemma run_ticks n id w :
  id ∈ timers w →
  dlg_currentStep (run (replicate n (Tick id)) w)
  = Nat.iter n Dialog.next_step (dlg_currentStep w).
Proof.
  revert w. induction n as [|n IH]; intros w Hid; [done|].
  rewrite Nat.iter_succ_r. simpl. rewrite bool_decide_eq_true_2 by done.
  by rewrite IH.
Qed.

Lemma FetchClick_starts w :
  Dialog.fetch_disabled (Dialog.render w) = false →
  Js.blank (repoUrl (app w)) = false →
  dlg_currentStep (step FetchClick w) = 0%Z
  ∧ timers (step FetchClick w) = timers w ++ [next_timer w].
Proof.
  intros Hd Hb. cbn [step]. rewrite Hd. unfold Dialog.fetchRepo. simpl.
  by rewrite Hb.
Qed.

(** X9.  The progress text walks the list once and stops at its end.  After
    a click on Fetch that starts an ingestion, [n] ticks of its interval
    leave the step at [min n 6]: one step forward per tick, and from the
    sixth tick on the text stays "Creating Knowledge Base...", however long
    the request takes. *)
Theorem progress_saturates w n :
  Dialog.fetch_disabled (Dialog.render w) = false →
  Js.blank (repoUrl (app w)) = false →
  let w' := run (replicate n (Tick (next_timer w))) (step FetchClick w) in
  dlg_currentStep w' = Z.min (Z.of_nat n) 6
  ∧ (6 ≤ n → Dialog.step_label (Dialog.render w') = Some "Creating Knowledge Base...").
Proof.
  intros Hd Hb w'.
  destruct (FetchClick_starts w Hd Hb) as [H0 Ht].
  assert (dlg_currentStep w' = Z.min (Z.of_nat n) 6) as Hs.
  { unfold w'. rewrite run_ticks.
    - rewrite H0. by rewrite iter_next_step by lia.
    - rewrite Ht. apply elem_of_app. right. by apply list_elem_of_singleton. }
  split; [exact Hs|]. intros Hn.
  unfold Dialog.step_label. simpl. rewrite Hs.
  replace (Z.min (Z.of_nat n) 6) with 6%Z by lia. done.
Qed.

Lemma progress_saturates_witness :
  let w := init Sample.fresh in
  dlg_currentStep (run (replicate 3 (Tick 0)) (step FetchClick w)) = 3%Z
  ∧ Dialog.step_label (Dialog.render (run (replicate 9 (Tick 0)) (step FetchClick w)))
    = Some "Creating Knowledge Base...".
Proof.
  intros w.
  destruct (progress_saturates w 3) as [H3 _]; [vm_compute; reflexivity..|].
  destruct (progress_saturates w 9) as [_ H9]; [vm_compute; reflexivity..|].
  split; [exact H3|]. apply H9. lia.
Defined.

End DialogRun.

(** ** The URL sent *)

Section Url.

Implicit Types (s t : list N) (w : World).

Lemma trimStart_split s :
  ∃ pre, s = pre ++ Js.trimStart s ∧ Js.whitespace_only pre = true.
Proof.
  induction s as [|c s (pre & Hs & Hpre)]; simpl; [by exists []|].
  destruct (Js.is_whitespace c) eqn:Hc.
  - exists (c :: pre). simpl. split; [by rewrite <-Hs|].
    unfold Js.whitespace_only in *. simpl. by rewrite Hc.
  - by exists [].
Qed.

Lemma trimEnd_split t :
  ∃ post, t = Js.trimEnd t ++ post ∧ Js.whitespace_only post = true.
Proof.
  unfold Js.trimEnd. destruct (trimStart_split (reverse t)) as (pre & Ht & Hpre).
  exists (reverse pre). split.
  - rewrite <-reverse_app, <-Ht. by rewrite reverse_involutive.
  - by rewrite whitespace_only_reverse.
Qed.

Lemma trimStart_fixed s c s' :
  s = c :: s' → Js.is_whitespace c = false → Js.trimStart s = s.
Proof. intros -> Hc. simpl. by rewrite Hc. Qed.

Lemma trim_ends s c t' :
  Js.trim s = c :: t' →
  Js.is_whitespace c = false
  ∧ ∃ d, last (Js.trim s) = Some d ∧ Js.is_whitespace d = false.
Proof.
  unfold Js.trim, Js.trimEnd. intros Ht.
  destruct (Js.trimStart (reverse (Js.trimStart s))) as [|d u] eqn:Hu;
    [by rewrite reverse_nil in Ht|].
  pose proof (trimStart_head _ _ _ Hu) as Hd.
  split.
  - destruct (Js.trimStart s) as [|c0 s0] eqn:Hs; [done|].
    pose proof (trimStart_head _ _ _ Hs) as Hc0.
    destruct (trimEnd_split (c0 :: s0)) as (post & Hpost & _).
    unfold Js.trimEnd in Hpost. rewrite Hu, Ht in Hpost.
    by injection Hpost as -> _.
  - exists d. split; [|done]. by rewrite last_reverse.
Qed.

Lemma trim_fixed s c t' : Js.trim s = c :: t' → Js.trim (Js.trim s) = Js.trim s.
Proof.
  intros Ht. destruct (trim_ends s c t' Ht) as (Hc & d & Hd & Hdw).
  unfold Js.trim at 1. rewrite (trimStart_fixed _ c t') by done.
  unfold Js.trimEnd. rewrite <-head_reverse in Hd.
  destruct (reverse (Js.trim s)) as [|d' r] eqn:Hr; [done|].
  injection Hd as ->. rewrite (trimStart_fixed _ d r) by done.
  by rewrite <-Hr, reverse_involutive.
Qed.

(** X10.  The repository URL is sent trimmed and whole.  A click on Fetch
    that starts an ingestion sends as [url] the typed text without the white
    space around it: the typed text is white space, then the [url], then white
    space; the [url] is not empty and neither begins nor ends with white
    space, so trimming it again changes nothing.  The text in the input field
    stays as typed. *)
Theorem processRepo_url_trimmed w :
  Dialog.fetch_disabled (Dialog.render w) = false →
  Js.blank (repoUrl (app w)) = false →
  ∃ p u pre post c d,
    effects (step FetchClick w) = effects w ++ [EProcessRepo p]
    ∧ Js.get p "url" = Some (Js.Str u)
    ∧ repoUrl (app w) = pre ++ u ++ post
    ∧ Js.whitespace_only pre = true ∧ Js.whitespace_only post = true
    ∧ head u = Some c ∧ Js.is_whitespace c = false
    ∧ last u = Some d ∧ Js.is_whitespace d = false
    ∧ Js.trim u = u
    ∧ repoUrl (app (step FetchClick w)) = repoUrl (app w).
Proof.
  intros Hd Hb.
  destruct (trimStart_split (repoUrl (app w))) as (pre & Hpre & Hprew).
  destruct (trimEnd_split (Js.trimStart (repoUrl (app w)))) as (post & Hpost & Hpostw).
  fold (Js.trim (repoUrl (app w))) in Hpost.
  destruct (Js.trim (repoUrl (app w))) as [|c t'] eqn:Ht.
  { apply trim_nil in Ht. by rewrite blank_whitespace_only, Ht in Hb. }
  destruct (trim_ends _ _ _ Ht) as (Hc & d & Hlast & Hdw).
  exists (Dialog.processRepo_payload (Dialog.render w)), (c :: t'), pre, post, c, d.
  split; [|split; [|split; [|split; [|split; [|split; [|split; [|split; [|split; [|split]]]]]]]]];
    try done.
  - cbn [step]. rewrite Hd. by apply fetchRepo_effects.
  - unfold Dialog.processRepo_payload. simpl. simplify_map_eq. by rewrite Ht.
  - by rewrite Hpre at 1; rewrite Hpost.
  - by rewrite <-Ht.
  - rewrite <-Ht. by eapply trim_fixed.
  - cbn [step]. rewrite Hd. unfold Dialog.fetchRepo. simpl. by rewrite Hb.
Qed.

Lemma processRepo_url_trimmed_witness :
  let w := step (RepoUrlInput (32 :: 9 :: Sample.url ++ [10; 32])%N) (init Sample.fresh) in
  ∃ p, effects (step FetchClick w) = [EProcessRepo p]
       ∧ Js.get p "url" = Some (Js.Str Sample.url).
Proof.
  intros w.
  destruct (processRepo_url_trimmed w) as (p & u & pre & post & c & d & He & Hu & _);
    [vm_compute; reflexivity..|].
  exists p. split; [exact He|].
  vm_compute in He. injection He as <-. vm_compute; reflexivity.
Defined.

End Url.

(** ** The texts of a select *)

Section Labels.

Implicit Types (sep s cur label : list N) (l : list (list N)).

Lemma starts_with_app sep s : JsText.starts_with sep (sep ++ s) = true.
Proof.
  induction sep as [|a sep IH]; simpl; [done|].
  by rewrite bool_decide_eq_true_2, IH.
Qed.

Lemma starts_with_drop sep s :
  JsText.starts_with sep s = true → s = sep ++ drop (length sep) s.
Proof.
  revert s. induction sep as [|a sep IH]; intros [|b s]; simpl; try done.
  intros [Hab Hs]%andb_prop. apply bool_decide_eq_true in Hab as ->.
  f_equal. by apply IH.
Qed.

Lemma split_from_nonempty sep k cur s : JsText.split_from sep k cur s ≠ [].
Proof.
  revert k cur. induction s as [|c s IH]; intros k cur;
    cbn [JsText.split_from]; [done|].
  destruct k; [|apply IH].
  destruct (JsText.starts_with sep (c :: s)); [done|apply IH].
Qed.

Lemma join_cons sep x l :
  l ≠ [] → JsText.join sep (x :: l) = x ++ sep ++ JsText.join sep l.
Proof. by destruct l. Qed.

Lemma join_split_from a sep s k cur :
  k ≤ length s →
  JsText.join (a :: sep) (JsText.split_from (a :: sep) k cur s)
  = reverse cur ++ drop k s.
Proof.
  revert k cur. induction s as [|c s IH]; intros k cur Hk;
    cbn [JsText.split_from length drop] in *.
  - replace k with 0 by lia. simpl. by rewrite app_nil_r.
  - destruct k as [|k]; [|apply IH; lia].
    destruct (JsText.starts_with (a :: sep) (c :: s)) eqn:Hsw.
    + rewrite join_cons by apply split_from_nonempty.
      pose proof (starts_with_drop _ _ Hsw) as Hd. simpl in Hd.
      injection Hd as -> Hs. apply (f_equal length) in Hs as Hlen.
      rewrite length_app in Hlen.
      replace (length (a :: sep) - 1) with (length sep) by (simpl; lia).
      rewrite IH by lia. rewrite reverse_nil. simpl.
      by rewrite Nat.sub_0_r, <-Hs.
    + rewrite IH by lia. simpl. by rewrite reverse_cons, <-(assoc_L (++)).
Qed.

(** [split] and [join] are inverse on the text: for every separator, the
    empty one included, the pieces of [s.split(sep)] joined again with [sep]
    are [s]. *)
Lemma join_split sep s : JsText.join sep (JsText.split sep s) = s.
Proof.
  destruct sep as [|a sep]; simpl.
  - induction s as [|c [|d s] IH]; simpl in *; [done..|]. by rewrite IH.
  - by rewrite join_split_from by lia.
Qed.

Lemma split_from_no_match a sep s cur :
  JsText.includes (a :: sep) s = false →
  JsText.split_from (a :: sep) 0 cur s = [reverse cur ++ s].
Proof.
  revert cur. induction s as [|c s IH]; intros cur;
    cbn [JsText.includes JsText.split_from].
  - intros _. by rewrite app_nil_r.
  - intros [-> Hs]%orb_false_elim. rewrite IH by done.
    by rewrite reverse_cons, <-(assoc_L (++)).
Qed.

Lemma split_from_match a sep s cur :
  JsText.includes (a :: sep) s = true →
  ∃ h rest, JsText.split_from (a :: sep) 0 cur s = h :: rest ∧ rest ≠ [].
Proof.
  revert cur. induction s as [|c s IH]; intros cur;
    cbn [JsText.includes JsText.split_from]; [done|].
  destruct (JsText.starts_with (a :: sep) (c :: s)); simpl.
  - intros _. eexists _, _. split; [done|]. apply split_from_nonempty.
  - apply IH.
Qed.

(** The first piece of a split ends where the separator first occurs. *)
Lemma split_from_cut a sep s cur h rest :
  JsText.split_from (a :: sep) 0 cur s = h :: rest →
  rest ≠ [] →
  ∃ pre, h = reverse cur ++ pre
         ∧ ∀ pre' post', s = pre' ++ (a :: sep) ++ post' → length pre ≤ length pre'.
Proof.
  revert cur. induction s as [|c s IH]; intros cur;
    cbn [JsText.split_from].
  - by intros [= _ <-].
  - destruct (JsText.starts_with (a :: sep) (c :: s)) eqn:Hsw.
    + intros [= <- _] _. exists []. rewrite app_nil_r. split; [done|].
      intros pre' post' _. simpl. lia.
    + intros Hsplit Hrest. destruct (IH _ Hsplit Hrest) as (pre & -> & Hmin).
      exists (c :: pre). split; [by rewrite reverse_cons, <-(assoc_L (++))|].
      intros [|c' pre'] post' Hs.
      * rewrite app_nil_l in Hs. by rewrite Hs, starts_with_app in Hsw.
      * rewrite <-app_comm_cons in Hs. injection Hs as _ Hs.
        specialize (Hmin pre' post' Hs). simpl. lia.
Qed.

(** X11.  The two lines of an entry of the dialog's list show the whole
    label, cut at its first " - ".  For every label the first line is
    defined; when the label has a " - ", the label is the first line, the
    " - " and the second line, and no " - " of the label begins before the
    end of the first line, so that a later " - " stays in the second line;
    when it has none, both lines are the label in full. *)
Theorem dialog_entry_lines label :
  ∃ h, CustomSelect.Dialog_headline label = Some h
       ∧ if JsText.includes (Js.lit " - ") label
         then label = h ++ Js.lit " - " ++ CustomSelect.Dialog_detail label
              ∧ ∀ pre post, label = pre ++ Js.lit " - " ++ post →
                            length h ≤ length pre
         else h = label ∧ CustomSelect.Dialog_detail label = label.
Proof.
  unfold CustomSelect.Dialog_headline, CustomSelect.Dialog_detail.
  change (Js.lit " - ") with [32; 45; 32]%N.
  destruct (JsText.includes [32; 45; 32]%N label) eqn:Hinc.
  - destruct (split_from_match _ _ _ [] Hinc) as (h & rest & Hsplit & Hrest).
    destruct (split_from_cut _ _ _ _ _ _ Hsplit Hrest) as (pre & Hh & Hmin).
    rewrite reverse_nil, app_nil_l in Hh. subst pre.
    pose proof (join_split [32; 45; 32]%N label) as Hjoin.
    unfold JsText.split in *. rewrite Hsplit in *.
    exists h. split; [done|]. rewrite join_cons in Hjoin by done.
    split; [by simpl|exact Hmin].
  - exists label. unfold JsText.split. by rewrite split_from_no_match.
Qed.

(** A label with two separators is cut at the first, not at the last. *)
Lemma entry_cut_at_first_separator :
  CustomSelect.Dialog_headline (Js.lit "#12 - Fix - the bug") = Some (Js.lit "#12")
  ∧ CustomSelect.Dialog_detail (Js.lit "#12 - Fix - the bug") = Js.lit "Fix - the bug".
Proof. split; vm_compute; reflexivity. Qed.

Lemma split_from_first a sep (pre rest cur : list N) :
  Forall (λ c, c ≠ a) pre →
  JsText.split_from (a :: sep) 0 cur (pre ++ (a :: sep) ++ rest)
  = (reverse cur ++ pre)
      :: JsText.split_from (a :: sep) (length sep) [] (sep ++ rest).
Proof.
  revert cur. induction pre as [|c pre IH]; intros cur Hpre.
  - pose proof (starts_with_app (a :: sep) rest) as Hsw.
    rewrite app_nil_l, app_nil_r.
    change ((a :: sep) ++ rest) with (a :: (sep ++ rest)) in *.
    cbn [JsText.split_from]. rewrite Hsw.
    by replace (length (a :: sep) - 1) with (length sep) by (simpl; lia).
  - apply Forall_cons in Hpre as [Hc Hpre].
    rewrite <-app_comm_cons. cbn [JsText.split_from].
    assert (JsText.starts_with (a :: sep) (c :: pre ++ (a :: sep) ++ rest) = false)
      as ->.
    { simpl. by rewrite bool_decide_eq_false_2. }
    rewrite IH by done. by rewrite reverse_cons, <-(assoc_L (++)).
Qed.

Lemma split_from_skip a sep (pre rest cur : list N) :
  JsText.split_from (a :: sep) (length pre) cur (pre ++ rest)
  = JsText.split_from (a :: sep) 0 cur rest.
Proof. induction pre as [|c pre IH]; simpl; [done|exact IH]. Qed.

Lemma includes_app sep (pre rest : list N) :
  JsText.includes sep (pre ++ sep ++ rest) = true.
Proof.
  induction pre as [|c pre IH]; simpl.
  - destruct (sep ++ rest) as [|c s] eqn:E.
    + by destruct sep.
    + cbn [JsText.includes]. by rewrite <-E, starts_with_app.
  - by rewrite IH, orb_true_r.
Qed.

(** X12.  An issue's entry shows its number and its title apart.  For an id
    whose text has no space, as that of every number, the first line of the
    entry labelled [#id - title] is [#id] and the second line is the title,
    whole, also when the title itself has a " - " in it. *)
Theorem issue_entry_lines (id title : list N) :
  Forall (λ c, c ≠ 32%N) id →
  CustomSelect.Dialog_headline (issue_label id title) = Some (Js.lit "#" ++ id)
  ∧ CustomSelect.Dialog_detail (issue_label id title) = title.
Proof.
  intros Hid.
  unfold CustomSelect.Dialog_headline, CustomSelect.Dialog_detail, issue_label.
  change (Js.lit " - ") with [32; 45; 32]%N. change (Js.lit "#") with [35%N].
  assert (JsText.split [32; 45; 32]%N ([35%N] ++ id ++ [32; 45; 32]%N ++ title)
          = (35%N :: id) :: JsText.split [32; 45; 32]%N title) as Hsplit.
  { unfold JsText.split.
    change ([35%N] ++ id ++ [32; 45; 32]%N ++ title)
      with ((35%N :: id) ++ [32; 45; 32]%N ++ title).
    rewrite split_from_first by (by apply Forall_cons).
    by rewrite (split_from_skip 32%N [45; 32]%N [45; 32]%N title). }
  rewrite Hsplit. split; [done|].
  change ([35%N] ++ id ++ [32; 45; 32]%N ++ title)
    with ((35%N :: id) ++ [32; 45; 32]%N ++ title).
  rewrite includes_app. exact (join_split [32; 45; 32]%N title).
Qed.

Lemma issue_entry_lines_witness :
  CustomSelect.Dialog_headline (issue_label (Js.lit "12") (Js.lit "Fix - the bug"))
    = Some (Js.lit "#12")
  ∧ CustomSelect.Dialog_detail (issue_label (Js.lit "12") (Js.lit "Fix - the bug"))
    = Js.lit "Fix - the bug".
Proof.
  apply (issue_entry_lines (Js.lit "12") (Js.lit "Fix - the bug")).
  repeat constructor; discriminate.
Defined.

End Labels.

(** ** The trigger of a select *)

Section Trigger.

Implicit Types (v placeholder : Js.Value) (os : list (Js.Value * list N)).

Lemma find_first v os i o :
  os !! i = Some o →
  JsText.strict_eq o.1 v = Some true →
  (∀ j o', j < i → os !! j = Some o' → JsText.strict_eq o'.1 v = Some false) →
  CustomSelect.find v os = Some (Some o).
Proof.
  revert i. induction os as [|o0 os IH]; intros i Hi Ho Hbefore; [done|].
  destruct i as [|i]; simpl in *.
  - injection Hi as ->. by rewrite Ho.
  - rewrite (Hbefore 0 o0) by (done || lia). simpl.
    apply (IH i); [done..|].
    intros j o' Hj Ho'. apply (Hbefore (S j)); [lia|done].
Qed.

Lemma find_none v os :
  Forall (λ o, JsText.strict_eq o.1 v = Some false) os →
  CustomSelect.find v os = Some None.
Proof.
  induction 1 as [|o os Ho _ IH]; simpl; [done|]. by rewrite Ho.
Qed.

(** X13.  The trigger of a select shows the label of the first option whose
    value is the selected value.  When option [i] has the value and no
    option before it does, the text is that option's label, also when a
    later option has the same value; only an empty label gives way to the
    placeholder. *)
Theorem selectedLabel_first v os i o placeholder :
  os !! i = Some o →
  JsText.strict_eq o.1 v = Some true →
  (∀ j o', j < i → os !! j = Some o' → JsText.strict_eq o'.1 v = Some false) →
  CustomSelect.selectedLabel v os placeholder
  = Some (if bool_decide (o.2 = []) then placeholder else Js.Str o.2).
Proof.
  intros Hi Ho Hbefore. unfold CustomSelect.selectedLabel.
  rewrite (find_first v os i o) by done. simpl. unfold Js.or. simpl.
  by destruct o.2.
Qed.

Lemma selectedLabel_first_witness :
  CustomSelect.selectedLabel Sample.groq
    (CustomSelect.of_options Sidebar.modelOptions)
    (CustomSelect.Sidebar_placeholder Js.Undefined)
  = Some (Js.Str (Js.lit "ChatGPT-OSS")).
Proof.
  apply (selectedLabel_first Sample.groq
           (CustomSelect.of_options Sidebar.modelOptions) 1
           (Sample.groq, Js.lit "ChatGPT-OSS")).
  - reflexivity.
  - reflexivity.
  - intros [|j] o' Hj Ho'; [|lia]. by injection Ho' as <-.
Defined.

(** X14.  With a selected value that is no option's value the trigger shows
    the placeholder: the one passed, the sidebar's "Select option" when none
    is passed there, and nothing ([undefined]) in the dialog when none is
    passed. *)
Theorem selectedLabel_placeholder v os placeholder :
  Forall (λ o, JsText.strict_eq o.1 v = Some false) os →
  CustomSelect.selectedLabel v os placeholder = Some placeholder
  ∧ CustomSelect.selectedLabel v os (CustomSelect.Sidebar_placeholder Js.Undefined)
    = Some (Js.Str (Js.lit "Select option"))
  ∧ CustomSelect.selectedLabel v os Js.Undefined = Some Js.Undefined.
Proof.
  intros Hos. unfold CustomSelect.selectedLabel. by rewrite find_none.
Qed.

(** No issue is selected once an ingestion has started: the issue select
    shows its placeholder. *)
Lemma selectedLabel_placeholder_witness :
  let w := step FetchClick (init Sample.settled) in
  CustomSelect.selectedLabel (selectedIssue (app w))
    [(Js.Num 1, issue_label (Js.lit "1") (Js.lit "Crash on start"));
     (Js.Num 2, issue_label (Js.lit "2") (Js.lit "Typo in README"))]
    (Js.Str (Js.lit "-- Select an Issue to Focus On --"))
  = Some (Js.Str (Js.lit "-- Select an Issue to Focus On --")).
Proof.
  apply selectedLabel_placeholder. by repeat constructor.
Defined.

(** X15.  A model picked in one panel shows in both.  After the user picks
    an option in the model select of the dialog or of the sidebar, the
    triggers of both model selects show the label of that option, whatever
    placeholder they have. *)
Theorem picked_model_shown p q i o w placeholder :
  modelOptions_of p !! i = Some o →
  CustomSelect.selectedLabel (selectedModel (app (step (PickModel p i) w)))
    (CustomSelect.of_options (modelOptions_of q)) placeholder
  = Some (Js.Str (Js.lit (label o))).
Proof.
  intros Ho. cbn [step]. rewrite Ho. simpl.
  destruct p, q, i as [|[|i]]; simplify_eq/=; reflexivity.
Qed.

Lemma picked_model_shown_witness :
  CustomSelect.selectedLabel
    (selectedModel (app (step (PickModel InDialog 0) (init Sample.fresh))))
    (CustomSelect.of_options Sidebar.modelOptions)
    (CustomSelect.Sidebar_placeholder Js.Undefined)
  = Some (Js.Str (Js.lit "Gemini 1.5 Pro")).
Proof.
  apply (picked_model_shown InDialog InSidebar 0
           (mkOption (Js.Str (Js.lit "gemini")) "Gemini 1.5 Pro")).
  reflexivity.
Defined.

End Trigger.

(** ** The issue picked *)

Section Issues.

Implicit Types (w : World) (l vs : list Js.Value) (p : Panel).

Lemma issueOptions_values_lookup l :
  Forall (λ x, x ≠ Js.Undefined ∧ x ≠ Js.Null) l →
  ∃ vs, issueOptions_values (Js.Arr l) = Some vs
        ∧ length vs = length l
        ∧ ∀ i x, l !! i = Some x → Js.get x "id" = vs !! i.
Proof.
  simpl. intros Hl.
  assert (is_Some (mapM (λ i, Js.get i "id") l)) as [vs Hvs].
  { induction Hl as [|x l [Hu Hn] _ [vs IH]]; simpl; [by eexists|].
    rewrite IH. destruct x; simpl; try done; by eexists. }
  exists vs. split; [exact Hvs|].
  split; [symmetry; by eapply length_mapM|].
  intros i x Hx. apply mapM_Some_1 in Hvs.
  destruct (Forall2_lookup_l _ _ _ _ _ Hvs Hx) as (y & -> & Hy). exact Hy.
Qed.

(** X16.  The issue select has one option per issue, in order, when every
    issue is an object or another value with properties: the value of option
    [i] is the [id] of issue [i], [undefined] when it has none.  A [null] or
    [undefined] among the issues makes the render throw. *)
Theorem issueOptions_values_spec l :
  (Forall (λ x, x ≠ Js.Undefined ∧ x ≠ Js.Null) l →
   ∃ vs, issueOptions_values (Js.Arr l) = Some vs
         ∧ length vs = length l
         ∧ ∀ i x, l !! i = Some x → Js.get x "id" = vs !! i)
  ∧ (Exists (λ x, x = Js.Undefined ∨ x = Js.Null) l →
     issueOptions_values (Js.Arr l) = None).
Proof.
  split.
  - apply issueOptions_values_lookup.
  - intros Hl. simpl. apply mapM_None_2.
    eapply Exists_impl; [exact Hl|]. by intros x [-> | ->].
Qed.

Lemma issueOptions_values_spec_witness :
  issueOptions_values (Js.Arr [Sample.issue1; Sample.issue2])
    = Some [Js.Num 1; Js.Num 2]
  ∧ issueOptions_values (Js.Arr [Sample.issue1; Js.Null]) = None.
Proof.
  destruct (issueOptions_values_spec [Sample.issue1; Js.Null]) as [_ H].
  split; [vm_compute; reflexivity|]. apply H. right. left. by right.
Defined.

(** X17.  The issue picked is the issue asked about.  When the user picks
    option [i] of the issue select in either panel, the selected issue
    becomes the [id] of issue [i], and the next question sent names it as
    [issue_id]. *)
Theorem picked_issue_is_asked p i l x v w :
  issues (app w) = Js.Arr l →
  Forall (λ x, x ≠ Js.Undefined ∧ x ≠ Js.Null) l →
  l !! i = Some x →
  Js.get x "id" = Some v →
  Js.blank (chat_input w) = false →
  let w' := step (PickIssue p i) w in
  selectedIssue (app w') = v
  ∧ ∃ q, effects (step ChatEnter w') = effects w ++ [EAskAI q]
         ∧ Js.get q "issue_id" = Some v.
Proof.
  intros Hi Hl Hx Hv Hb w'.
  destruct (issueOptions_values_lookup l Hl) as (vs & Hvs & _ & Hid).
  assert (w' = setSelectedIssue v w) as ->.
  { unfold w'. cbn [step]. rewrite Hi, Hvs. simpl.
    by rewrite <-(Hid i x Hx), Hv. }
  split; [done|].
  exists (ChatUI.askAI_payload (ChatUI.render (setSelectedIssue v w)) (chat_input w)).
  split; [exact (sendMessage_effects (setSelectedIssue v w) Hb)|].
  by destruct (askAI_payload_get (ChatUI.render (setSelectedIssue v w)) (chat_input w))
    as (H & _).
Qed.

Lemma picked_issue_is_asked_witness :
  let w := step (ChatInput (Js.lit "Why does it crash?")) (init Sample.settled) in
  selectedIssue (app (step (PickIssue InSidebar 1) w)) = Js.Num 2
  ∧ ∃ q, effects (step ChatEnter (step (PickIssue InSidebar 1) w)) = [EAskAI q]
         ∧ Js.get q "issue_id" = Some (Js.Num 2).
Proof.
  intros w.
  apply (picked_issue_is_asked InSidebar 1 [Sample.issue1; Sample.issue2]
           Sample.issue2 (Js.Num 2) w).
  - reflexivity.
  - by repeat constructor.
  - reflexivity.
  - vm_compute; reflexivity.
  - vm_compute; reflexivity.
Defined.

End Issues.

(** ** Continue, and the summary page *)

Section Continue.

Implicit Types (w : World) (e : Event) (evs : list Event) (p : Panel).

(** X18.  Continue goes on exactly when the picked issue's id is truthy.
    After the user picks option [i] of the issue select, whose value is [v],
    the Continue section is shown, and a click on Continue calls [onDone]
    when [v] is truthy and alerts otherwise: an issue whose id is [0], the
    empty string or missing is picked and still asked for. *)
Theorem continue_after_pick p i vs v w :
  issueOptions_values (issues (app w)) = Some vs →
  vs !! i = Some v →
  let w' := step (PickIssue p i) w in
  Dialog_continue_shown (Dialog.render w') = Some true
  ∧ Dialog_continue (Dialog.render w')
    = (if Js.truthy v then CallOnDone else AlertSelectIssue).
Proof.
  intros Hvs Hv w'.
  assert (w' = setSelectedIssue v w) as ->.
  { unfold w'. cbn [step]. rewrite Hvs. simpl. by rewrite Hv. }
  unfold Dialog_continue_shown, Dialog_continue. simpl. rewrite Hvs. simpl.
  split; [|done]. f_equal. apply bool_decide_eq_true_2.
  apply lookup_lt_Some in Hv. lia.
Qed.

Lemma continue_after_pick_witness :
  let w := setIssues (Js.Arr [Js.Obj {["id" := Js.Num 0]}; Sample.issue1])
             (init Sample.fresh) in
  Dialog_continue (Dialog.render (step (PickIssue InDialog 0) w)) = AlertSelectIssue
  ∧ Dialog_continue (Dialog.render (step (PickIssue InDialog 1) w)) = CallOnDone.
Proof.
  intros w.
  destruct (continue_after_pick InDialog 0 [Js.Num 0; Js.Num 1] (Js.Num 0) w)
    as [_ H0]; [vm_compute; reflexivity..|].
  destruct (continue_after_pick InDialog 1 [Js.Num 0; Js.Num 1] (Js.Num 1) w)
    as [_ H1]; [vm_compute; reflexivity..|].
  split; [exact H0|exact H1].
Defined.

(** X19.  No way on while an ingestion is in flight.  From a click on Fetch
    that starts an ingestion until a [processRepo] call settles, whatever
    else happens, the issue list is empty, the Continue section is hidden,
    and Continue, could it be clicked, would alert. *)
Theorem continue_hidden_while_fetching w evs :
  Dialog.fetch_disabled (Dialog.render w) = false →
  Js.blank (repoUrl (app w)) = false →
  forallb (λ e, negb (settles_processRepo e)) evs = true →
  let w' := run evs (step FetchClick w) in
  issues (app w') = Js.Arr []
  ∧ Dialog_continue_shown (Dialog.render w') = Some false
  ∧ Dialog_continue (Dialog.render w') = AlertSelectIssue.
Proof.
  intros Hd Hb Hevs w'.
  destruct (run_cleared evs (step FetchClick w) Hevs) as (Hi & Hs & _).
  { cbn [step]. rewrite Hd. unfold Dialog.fetchRepo. simpl. by rewrite Hb. }
  { cbn [step]. rewrite Hd. unfold Dialog.fetchRepo. simpl. by rewrite Hb. }
  fold w' in Hi, Hs.
  unfold Dialog_continue_shown, Dialog_continue. simpl. by rewrite Hi, Hs.
Qed.

Lemma continue_hidden_while_fetching_witness :
  let w' := run [Tick 0; PickIssue InDialog 0; ChatInput (Js.lit "hm")]
              (step FetchClick (init Sample.settled)) in
  issues (app w') = Js.Arr []
  ∧ Dialog_continue_shown (Dialog.render w') = Some false
  ∧ Dialog_continue (Dialog.render w') = AlertSelectIssue.
Proof.
  apply (continue_hidden_while_fetching (init Sample.settled)
           [Tick 0; PickIssue InDialog 0; ChatInput (Js.lit "hm")]);
    vm_compute; reflexivity.
Defined.

(** X20.  The summary page never renders nothing.  Whatever the summary in
    the context, the markdown handed to [marked] is truthy; and after a
    successful ingestion whose [data.summary] is a string or absent, it is
    that summary when it is a non-empty string and the "No summary available"
    notice when it is absent or empty. *)
Theorem summary_page_source w id res (data : gmap string Js.Value) :
  Js.get res "data" = Some (Js.Obj data) →
  (data !! "summary" = None ∨ ∃ s, data !! "summary" = Some (Js.Str s)) →
  let w' := Dialog.fetchRepo_settled id (Resolved res) w in
  (∀ v, Js.truthy (SummaryPage_source v) = true)
  ∧ SummaryPage_source (summary (app w'))
    = match data !! "summary" with
      | Some (Js.Str (c :: s)) => Js.Str (c :: s)
      | _ => Js.Str (Js.lit "*No summary available. Please check the repository URL.*")
      end.
Proof.
  intros Hd Hs w'. split.
  - intros v. unfold SummaryPage_source, Js.or.
    by destruct (Js.truthy v) eqn:Hv.
  - unfold w', Dialog.fetchRepo_settled. rewrite (publish_data res data) by done.
    simpl. by destruct Hs as [->|[[|c s] ->]].
Qed.

Lemma summary_page_source_witness :
  let res := Js.Obj {["data" := Js.Obj {["issues" := Js.Arr []]}]} in
  let w' := Dialog.fetchRepo_settled 0 (Resolved res) (init Sample.settled) in
  SummaryPage_source (summary (app w'))
  = Js.Str (Js.lit "*No summary available. Please check the repository URL.*").
Proof.
  intros res w'.
  destruct (summary_page_source (init Sample.settled) 0 res {["issues" := Js.Arr []]})
    as [_ H]; [vm_compute; reflexivity|by left|].
  vm_compute in H |- *. exact H.
Defined.

End Continue.

(** ** What is sent, and when *)

Section Requests.

Implicit Types (w : World) (e : Event).

Lemma requests_snoc es (x : Effect) :
  requests (es ++ [x]) = requests es ++ (if is_request x then [x] else []).
Proof.
  unfold requests. rewrite filter_app. f_equal.
  destruct x; simpl; by rewrite ?filter_cons_True, ?filter_cons_False by done.
Qed.

(** X21.  Requests leave on a gesture only, one at a time, and nothing
    emitted is taken back.  Every event extends the effects at their end; an
    event that is not the Enter key, a click on Send or a click on Fetch (a
    reply, a tick, a choice in a select, typing) sends no request; and no
    event sends more than one. *)
Theorem requests_only_on_gestures e w :
  effects w `prefix_of` effects (step e w)
  ∧ (is_gesture e = false → requests (effects (step e w)) = requests (effects w))
  ∧ length (requests (effects (step e w))) ≤ S (length (requests (effects w))).
Proof.
  by_cases_on_step e.
  all: rewrite ?requests_snoc, ?length_app; simpl.
  all: rewrite ?app_nil_r.
  all: repeat split; try done; try lia; try (by apply prefix_app_r).
Qed.

End Requests.
